(** * apache-log-exporter-api.py: the log follower and the ingestion loop

    A shallow embedding of [follow], [ApacheLogExporter.parse_line] and
    [ApacheLogExporter.read_log_files], with the file system, the log
    parser and the Prometheus metric objects as the environment.

    Conventions of the model.
    - Text is a list of characters. The file is opened in text mode;
      [file.readline()] is modelled for plain text (ASCII without the
      carriage return: one character per byte, nothing to decode, the
      line feed the only end of line) and as the text of the file at the
      handle's offset. The read-ahead buffer of the file object holds
      that same text as long as the file is only appended to, or is
      changed otherwise only once everything in it has been read; the
      statements that depend on what a read returns keep to these cases.
    - The followed path names at most one file at a time; files are kept
      by inode, so a handle opened before a rotation still reads the old
      file.
    - The environment (the web server, logrotate) acts between two system
      calls of the program: a schedule gives, for every system call, the
      list of actions that happen just before it. *)

From stdpp Require Import base option list gmap strings pretty.
From Stdlib Require Import ZArith Lia Ascii.

Local Open Scope Z_scope.
Local Open Scope list_scope.

(** ** Text and [readline] *)

Abbreviation text := (list ascii).

Definition LF : ascii := "010"%char.

(** A string literal as text (Rocq literals have no escape for newline;
    write [t "abc" ++ [LF]]). *)
Definition t (s : string) : text := String.list_ascii_of_string s.

(** [line.endswith("\n")] *)
Definition endswith_nl (s : text) : bool := bool_decide (last s = Some LF).

(** The characters of [s] up to and including its first newline, all of [s]
    when it has none: what [readline] returns when [s] is the unread rest
    of the file and is plain text (see [plain_text] below; in other text
    a carriage return ends a line too and comes back as a newline). *)
Fixpoint upto_newline (s : text) : text :=
  match s with
  | [] => []
  | c :: r => if Ascii.eqb c LF then [c] else c :: upto_newline r
  end.

(** No newline in [s]. *)
Definition no_nl (s : text) : Prop := LF ∉ s.

(** ** Exceptions *)

Inductive exn : Type :=
| FileNotFoundError
| InodeChangedError
| FileShrunkError
| AttributeError
| OtherException (name : string)   (* any other subclass of Exception *)
| NonException (name : string).    (* BaseException only: KeyboardInterrupt, SystemExit *)

(** [except Exception] *)
Definition is_Exception (e : exn) : bool :=
  match e with NonException _ => false | _ => true end.

(** [except (FileNotFoundError, InodeChangedError, FileShrunkError)] *)
Definition recoverable (e : exn) : bool :=
  match e with
  | FileNotFoundError | InodeChangedError | FileShrunkError => true
  | _ => false
  end.

(** ** The file system seen through the path [fn] *)

Record world := World {
  path : option Z;          (* inode of the file the path names, if any *)
  files : gmap Z text       (* contents by inode *)
}.

Definition contents (w : world) (i : Z) : text := default [] (files w !! i).

Record handle := Handle { h_inode : Z; h_pos : nat }.

(** What the environment can do to the followed path. *)
Inductive action : Type :=
| Append (s : text)            (* the writer appends to the file at the path *)
| Truncate (n : nat)           (* the file at the path is cut to its first n characters *)
| Rotate (i : Z) (s : text)    (* the path now names the file of inode i, holding s *)
| Remove.                      (* the path is unlinked *)

Definition act (w : world) (a : action) : world :=
  match a with
  | Append s =>
      match path w with
      | Some i => World (Some i) (<[i := contents w i ++ s]> (files w))
      | None => w
      end
  | Truncate n =>
      match path w with
      | Some i => World (Some i) (<[i := take n (contents w i)]> (files w))
      | None => w
      end
  | Rotate i s => World (Some i) (<[i := s]> (files w))
  | Remove => World None (files w)
  end.

Definition acts (w : world) (slot : list action) : world := foldl act w slot.

(** [os.lstat(fn)] *)
Definition lstat (w : world) : exn + (Z * Z) :=
  match path w with
  | None => inl FileNotFoundError
  | Some i => inr (i, Z.of_nat (length (contents w i)))
  end.

(** [GetInodeAndSize(fn)], lines 41-43 *)
Definition GetInodeAndSize (w : world) : exn + (Z * Z) := lstat w.

(** [open(fn, 'r')]: a handle at offset 0 *)
Definition open (w : world) : exn + handle :=
  match path w with
  | None => inl FileNotFoundError
  | Some i => inr (Handle i 0)
  end.

(** The unread rest of the file behind a handle. *)
Definition unread (w : world) (f : handle) : text :=
  drop (h_pos f) (contents w (h_inode f)).

(** [file.readline()]: the text returned and the handle moved past it,
    for a file of plain text whose unread part is what the file object
    would hand over (nothing stale in its read-ahead buffer). *)
Definition readline (w : world) (f : handle) : text * handle :=
  let tmp := upto_newline (unread w f) in
  (tmp, Handle (h_inode f) (h_pos f + length tmp)).

(** ** Values and records of the parser *)

Inductive pyval : Type :=
| PNone
| PInt (n : Z)
| PStr (s : string).

(** [str(v)] *)
Definition py_str (v : pyval) : string :=
  match v with
  | PNone => "None"
  | PInt n => pretty n
  | PStr s => s
  end.

(** A parsed entry: an attribute is [None] when the object does not have
    it ([hasattr] is false and reading it raises AttributeError). *)
Record RawRecord := Entry {
  virtual_host : option pyval;
  server_port : option pyval;
  remote_host : option pyval;
  request_uri : option pyval;
  final_status : option pyval;
  bytes_out : option pyval
}.

Definition getattr (a : option pyval) : exn + pyval :=
  match a with
  | None => inl AttributeError
  | Some v => inr v
  end.

Definition UNSPECIFIED : string := "def".

(** [resolver.get(key, default)] on a mapping with string keys *)
Definition resolver_get (resolver : gmap string string) (key : pyval) (dflt : string) : string :=
  match key with
  | PStr s => default dflt (resolver !! s)
  | _ => dflt
  end.

Definition summary_labels : Type := string * string * string * string * string.
Definition histogram_labels : Type := string * string.

(** ** What the program does, as seen from outside *)

Inductive event : Type :=
| EFollow (ignoreExisting : bool)          (* follow(fn, ignoreExisting) starts running *)
| ERead (tmp : text)                       (* file.readline() returned tmp *)
| EPollSleep (secs : nat)                  (* line 65 *)
| EYield (line : text)                     (* line 61 *)
| EWarn (line : text) (e : exn)            (* line 126 *)
| ESummary (labels : summary_labels) (amount : pyval)      (* lines 134-139 *)
| EHistogram (labels : histogram_labels) (amount : pyval)  (* lines 142-144 *)
| EPrint (e : exn)                         (* line 146 *)
| EBackoff (secs : nat).                   (* line 148 *)

(** ** [follow], lines 46-71 *)

(** The local variables of the generator once the file is open. *)
Record gen := Gen {
  origInode : Z;
  lastSize : Z;
  file : handle;
  line : text;
  ignoreExisting : bool
}.

(** Where the generator stands: the system call it is about to make. *)
Inductive fpc : Type :=
| AtStat (ign : bool)                  (* line 52 *)
| AtOpen (ign : bool) (ino size : Z)   (* line 53 *)
| AtReadline (g : gen)                 (* line 56 *)
| AtRecheck (g : gen).                 (* line 66, after the sleep of line 65 *)

Inductive outcome : Type :=
| Next (p : fpc)
| Yield (l : text) (p : fpc)
| Raise (e : exn).

(** Lines 57-65, given what [readline] returned and the handle after it. *)
Definition feed (g : gen) (tmp : text) (f' : handle) : list event * outcome :=
  if negb (bool_decide (tmp = [])) then
    let line' := line g ++ tmp in
    if endswith_nl line' then
      let g' := Gen (origInode g) (lastSize g) f' [] (ignoreExisting g) in
      if negb (ignoreExisting g)
      then ([ERead tmp; EYield line'], Yield line' (AtReadline g'))
      else ([ERead tmp], Next (AtReadline g'))
    else
      ([ERead tmp], Next (AtReadline (Gen (origInode g) (lastSize g) f' line' (ignoreExisting g))))
  else
    ([ERead tmp; EPollSleep 1],
     Next (AtRecheck (Gen (origInode g) (lastSize g) f' (line g) false))).

(** Lines 66-71, given what [GetInodeAndSize] returned. *)
Definition recheck (g : gen) (st : exn + (Z * Z)) : outcome :=
  match st with
  | inl e => Raise e
  | inr (newInode, newSize) =>
      if negb (Z.eqb newInode (origInode g)) then Raise InodeChangedError
      else if Z.ltb newSize (lastSize g) then Raise FileShrunkError
      else Next (AtReadline (Gen (origInode g) newSize (file g) (line g) (ignoreExisting g)))
  end.

(** One system call of the generator and the code up to the next one. *)
Definition follow_step (w : world) (p : fpc) : list event * outcome :=
  match p with
  | AtStat ign =>
      ([EFollow ign],
       match GetInodeAndSize w with
       | inl e => Raise e
       | inr (ino, size) => Next (AtOpen ign ino size)
       end)
  | AtOpen ign ino size =>
      ([],
       match open w with
       | inl e => Raise e
       | inr f => Next (AtReadline (Gen ino size f [] ign))
       end)
  | AtReadline g =>
      let '(tmp, f') := readline w (file g) in feed g tmp f'
  | AtRecheck g => ([], recheck g (GetInodeAndSize w))
  end.

(** [follow(fn, ignoreExisting)]: the generator before its first step. *)
Definition follow (ign : bool) : fpc := AtStat ign.

(** The generator running on its own, its consumer resuming it at once
    after every yield. *)
Record fsys := FSys {
  f_world : world;
  f_pc : exn + fpc;          (* inl: the generator has raised *)
  f_trace : list event
}.

Definition fstep (σ : fsys) (slot : list action) : fsys :=
  let w := acts (f_world σ) slot in
  match f_pc σ with
  | inl e => FSys w (inl e) (f_trace σ)
  | inr p =>
      let '(evs, o) := follow_step w p in
      FSys w
        (match o with Next p' | Yield _ p' => inr p' | Raise e => inl e end)
        (f_trace σ ++ evs)
  end.

Definition frun (sched : list (list action)) (σ : fsys) : fsys := foldl fstep σ sched.

(** The lines yielded and the text read, in order. *)
Definition yields (tr : list event) : list text :=
  omap (λ ev, match ev with EYield l => Some l | _ => None end) tr.

Definition reads (tr : list event) : list text :=
  omap (λ ev, match ev with ERead s => Some s | _ => None end) tr.

Definition follows (tr : list event) : list bool :=
  omap (λ ev, match ev with EFollow b => Some b | _ => None end) tr.

(** ** [ApacheLogExporter] *)

(** The attributes of the exporter object. The parser and the two metric
    objects are external: the parser returns an entry (or [None]) or
    raises; a metric call records the observation or raises. *)
Record ApacheLogExporter := Exporter {
  self_parser : text → exn + option RawRecord;
  self_resolver : gmap string string;
  self_ignoreExisting : bool;
  self_enableHistogram : bool;
  self_webRequestSummary : summary_labels → pyval → option exn;
  self_webRequestBytesOutHistogram : histogram_labels → pyval → option exn
}.

(** Lines 107-114: the defaults for attributes the entry does not have. *)
Definition set_defaults (entry : RawRecord) : RawRecord :=
  Entry
    (match virtual_host entry with None => Some (PStr "unspecified") | a => a end)
    (match server_port entry with None => Some (PInt 80) | a => a end)
    (remote_host entry)
    (request_uri entry)
    (final_status entry)
    (match bytes_out entry with None => Some (PInt 0) | a => a end).

(** [parse_line], lines 102-116. When the parser hands back [None], the
    first assignment of a default raises AttributeError. *)
Definition parse_line (self : ApacheLogExporter) (l : text) : exn + RawRecord :=
  match self_parser self l with
  | inl e => inl e
  | inr None => inl AttributeError
  | inr (Some entry) => inr (set_defaults entry)
  end.

(** Line 132. *)
Definition resolve (self : ApacheLogExporter) (entry : RawRecord) : exn + string :=
  match getattr (remote_host entry) with
  | inl e => inl e
  | inr h => inr (resolver_get (self_resolver self) h UNSPECIFIED)
  end.

(** The record after the defaults, with the resolved remote host: lines
    107-114 and 132 taken together. *)
Definition normalize (self : ApacheLogExporter) (raw : RawRecord) : exn + (RawRecord * string) :=
  let entry := set_defaults raw in
  match resolve self entry with
  | inl e => inl e
  | inr rh => inr (entry, rh)
  end.

(** Lines 134-139: the keyword arguments are evaluated in order, then
    [entry.bytes_out], then the observation is made. The metric object
    turns every label value into a string, as line 136 and line 138 do
    themselves. *)
Definition observe_summary (self : ApacheLogExporter) (entry : RawRecord) (rh : string)
  : list event * option exn :=
  match getattr (virtual_host entry), getattr (server_port entry),
        getattr (request_uri entry), getattr (final_status entry),
        getattr (bytes_out entry) with
  | inr vh, inr sp, inr uri, inr st, inr amount =>
      let labels := (py_str vh, py_str sp, py_str uri, py_str st, rh) in
      match self_webRequestSummary self labels amount with
      | Some e => ([], Some e)
      | None => ([ESummary labels amount], None)
      end
  | _, _, _, _, _ => ([], Some AttributeError)
  end.

(** Lines 141-144. *)
Definition observe_histogram (self : ApacheLogExporter) (entry : RawRecord) (rh : string)
  : list event * option exn :=
  if self_enableHistogram self then
    match getattr (virtual_host entry), getattr (bytes_out entry) with
    | inr vh, inr amount =>
        let labels := (py_str vh, rh) in
        match self_webRequestBytesOutHistogram self labels amount with
        | Some e => ([], Some e)
        | None => ([EHistogram labels amount], None)
        end
    | _, _ => ([], Some AttributeError)
    end
  else ([], None).

(** Lines 132-144: what happens to an entry once it is parsed. *)
Definition observe (self : ApacheLogExporter) (entry : RawRecord) : list event * option exn :=
  match resolve self entry with
  | inl e => ([], Some e)
  | inr rh =>
      match observe_summary self entry rh with
      | (evs, Some e) => (evs, Some e)
      | (evs, None) =>
          let '(evs', r) := observe_histogram self entry rh in (evs ++ evs', r)
      end
  end.

(** The body of the [for] loop, lines 123-144: the events, and the
    exception that leaves the body, if any. An entry object is always
    true, so line 129 never skips one. *)
Definition process_line (self : ApacheLogExporter) (l : text) : list event * option exn :=
  match parse_line self l with
  | inl e => if is_Exception e then ([EWarn l e], None) else ([], Some e)
  | inr entry => observe self entry
  end.

(** ** [read_log_files], lines 118-148 *)

Record sys := Sys {
  s_world : world;
  s_ignoreExisting : bool;     (* the local variable of line 119 *)
  s_pc : exn + fpc;            (* inl: an exception has left read_log_files *)
  s_trace : list event
}.

(** Lines 145-148, for an exception [e] raised inside the [try]. *)
Definition handle_exn (e : exn) (ign : bool) : list event * bool * (exn + fpc) :=
  if recoverable e
  then
    (* print, ignoreExisting = False, sleep; the while loop calls follow again *)
    let ign' := false in ([EPrint e; EBackoff 1], ign', inr (follow ign'))
  else ([], ign, inl e).

(** One system call of the follower and everything the loop does until
    the follower makes the next one. *)
Definition loop_step (self : ApacheLogExporter) (σ : sys) (slot : list action) : sys :=
  let w := acts (s_world σ) slot in
  match s_pc σ with
  | inl e => Sys w (s_ignoreExisting σ) (inl e) (s_trace σ)
  | inr p =>
      let '(evs, o) := follow_step w p in
      match o with
      | Next p' => Sys w (s_ignoreExisting σ) (inr p') (s_trace σ ++ evs)
      | Yield l p' =>
          match process_line self l with
          | (evs', None) => Sys w (s_ignoreExisting σ) (inr p') (s_trace σ ++ evs ++ evs')
          | (evs', Some e) =>
              let '(evs'', ign, pc) := handle_exn e (s_ignoreExisting σ) in
              Sys w ign pc (s_trace σ ++ evs ++ evs' ++ evs'')
          end
      | Raise e =>
          let '(evs', ign, pc) := handle_exn e (s_ignoreExisting σ) in
          Sys w ign pc (s_trace σ ++ evs ++ evs')
      end
  end.

(** [read_log_files] entered in world [w]: line 119, then the first call
    of [follow] at line 122. *)
Definition read_log_files_init (self : ApacheLogExporter) (w : world) : sys :=
  Sys w (self_ignoreExisting self) (inr (follow (self_ignoreExisting self))) [].

Definition read_log_files (self : ApacheLogExporter) (sched : list (list action)) (w : world) : sys :=
  foldl (loop_step self) (read_log_files_init self w) sched.

(** ** Vocabulary of the statements *)

(** Schedules in which the file is only appended to. *)
Definition written (a : action) : option text :=
  match a with Append s => Some s | _ => None end.

Definition append_only (slot : list action) : Prop :=
  Forall (λ a, is_Some (written a)) slot.

Definition appended (slot : list action) : text := concat (omap written slot).

(** The generator stands in its loop, on the file the path names, with
    the recorded identity of that file. *)
Record following (i : Z) (w : world) (p : fpc) (g : gen) : Prop := Following {
  fl_pc : p = AtReadline g ∨ (p = AtRecheck g ∧ ignoreExisting g = false);
  fl_path : path w = Some i;
  fl_handle : h_inode (file g) = i;
  fl_orig : origInode g = i;
  fl_size : lastSize g ≤ Z.of_nat (length (contents w i));
  fl_pos : (h_pos (file g) ≤ length (contents w i))%nat
}.

(** The read offset and the buffered partial line at a program point. *)
Definition offset (p : fpc) : nat :=
  match p with
  | AtReadline g | AtRecheck g => h_pos (file g)
  | _ => 0%nat
  end.

Definition buffer (p : fpc) : text :=
  match p with
  | AtReadline g | AtRecheck g => line g
  | _ => []
  end.

Definition skipping (p : fpc) : bool :=
  match p with
  | AtStat ign | AtOpen ign _ _ => ign
  | AtReadline g | AtRecheck g => ignoreExisting g
  end.

(** The characters of [c] from offset [k] up to offset [n]. *)
Definition segment (k n : nat) (c : text) : text := take (n - k) (drop k c).

(** What one step of the loop of [follow] does when nothing is raised:
    [move c g p evs p'] takes the generator from [p], with variables [g],
    to [p'] with events [evs], on a file whose contents are [c]. *)
Inductive move (c : text) (g : gen) : fpc → list event → fpc → Prop :=
| move_recheck :
    move c g (AtRecheck g) []
      (AtReadline (Gen (origInode g) (Z.of_nat (length c)) (file g) (line g) (ignoreExisting g)))
| move_idle :
    drop (h_pos (file g)) c = [] →
    move c g (AtReadline g) [ERead []; EPollSleep 1]
      (AtRecheck (Gen (origInode g) (lastSize g)
                    (Handle (h_inode (file g)) (h_pos (file g) + 0)) (line g) false))
| move_partial tmp :
    tmp = upto_newline (drop (h_pos (file g)) c) → tmp ≠ [] →
    endswith_nl (line g ++ tmp) = false →
    move c g (AtReadline g) [ERead tmp]
      (AtReadline (Gen (origInode g) (lastSize g)
                     (Handle (h_inode (file g)) (h_pos (file g) + length tmp))
                     (line g ++ tmp) (ignoreExisting g)))
| move_yield tmp :
    tmp = upto_newline (drop (h_pos (file g)) c) → tmp ≠ [] →
    endswith_nl (line g ++ tmp) = true → ignoreExisting g = false →
    move c g (AtReadline g) [ERead tmp; EYield (line g ++ tmp)]
      (AtReadline (Gen (origInode g) (lastSize g)
                     (Handle (h_inode (file g)) (h_pos (file g) + length tmp))
                     [] false))
| move_discard tmp :
    tmp = upto_newline (drop (h_pos (file g)) c) → tmp ≠ [] →
    endswith_nl (line g ++ tmp) = true → ignoreExisting g = true →
    move c g (AtReadline g) [ERead tmp]
      (AtReadline (Gen (origInode g) (lastSize g)
                     (Handle (h_inode (file g)) (h_pos (file g) + length tmp))
                     [] true)).

(** Slots that append text without a newline (possibly nothing). *)
Definition partial_only (slot : list action) : Prop :=
  append_only slot ∧ no_nl (appended slot).

(** The text appended over a whole schedule. *)
Definition arrived (sched : list (list action)) : text := concat (appended <$> sched).

(** The line in progress at a program point: what is buffered, then what
    is in the file and not yet read. *)
Definition pending (w : world) (p : fpc) : text :=
  match p with
  | AtReadline g | AtRecheck g => line g ++ unread w (file g)
  | _ => []
  end.

(** Content made of whole lines: empty, or ending with a newline. *)
Definition whole_lines (pre : text) : Prop := pre = [] ∨ last pre = Some LF.

(** Nothing of the first [n] characters of the file [i] has been yielded
    or is waiting in the buffer: what was yielded, followed by the
    buffer, is the file from some offset [k ≥ n] up to the read offset. *)
Definition yielded_past (n : nat) (i : Z) (σ : fsys) : Prop :=
  ∃ p k, f_pc σ = inr p ∧ (n ≤ k)%nat ∧
    concat (yields (f_trace σ)) ++ buffer p
      = segment k (offset p) (contents (f_world σ) i).

(** The invariant of a generator started with [ignoreExisting] true on a
    file that held [pre]. *)
Record past_existing (pre : text) (i : Z) (σ : fsys) (p : fpc) : Prop := PastExisting {
  pe_prefix : pre `prefix_of` contents (f_world σ) i;
  pe_from : ∃ k, (length pre ≤ k ≤ Nat.max (offset p) (length pre))%nat ∧
      concat (yields (f_trace σ)) ++ buffer p
        = segment k (offset p) (contents (f_world σ) i);
  pe_skip : skipping p = true → yields (f_trace σ) = [];
  pe_catchup : (offset p < length pre)%nat → buffer p = [] ∧ skipping p = true
}.

(** The traces of [read_log_files] as far as opening the file goes: the
    first event is the first call of [follow], with the configured flag
    [c]; a later call of [follow] has the flag off and comes right after
    the report of a recoverable exception and a sleep of one second. *)
Inductive recovery_trace (c : bool) : list event → Prop :=
| rt_first : recovery_trace c [EFollow c]
| rt_other tr ev :
    recovery_trace c tr → (∀ b, ev ≠ EFollow b) → recovery_trace c (tr ++ [ev])
| rt_reopen tr e :
    recovery_trace c tr → recoverable e = true →
    recovery_trace c (tr ++ [EPrint e; EBackoff 1; EFollow false]).

(** The state of the loop after at least one step. *)
Definition stepped (c : bool) (σ : sys) : Prop :=
  recovery_trace c (s_trace σ) ∧
  ∀ b, s_pc σ = inr (AtStat b) →
    b = false ∧ s_ignoreExisting σ = false ∧
    ∃ tr e, recovery_trace c tr ∧ recoverable e = true ∧
      s_trace σ = tr ++ [EPrint e; EBackoff 1].

Definition is_follow (ev : event) : bool :=
  match ev with EFollow _ => true | _ => false end.

Definition is_histogram (ev : event) : bool :=
  match ev with EHistogram _ _ => true | _ => false end.

(** A remote host the alias table maps. *)
Definition aliased (resolver : gmap string string) (h : pyval) : Prop :=
  ∃ s v, h = PStr s ∧ resolver !! s = Some v.

(** *** Plain text

    [open(fn, 'r')] decodes the bytes of the file and reads it with
    universal newlines. [readline] above is that read on plain text:
    ASCII characters other than the carriage return. Such a byte is one
    character in every encoding that extends ASCII, so that nothing fails
    to decode and an offset in characters is an offset in bytes, and the
    line feed is then the only character that ends a line. The statements
    that depend on what a read returns are made for plain text. *)
Definition CR : ascii := "013"%char.

Definition plain (c : ascii) : bool :=
  (nat_of_ascii c <? 128)%nat && negb (Ascii.eqb c CR).

Definition plain_text (s : text) : Prop := forallb plain s = true.

(** The text an action writes is plain. *)
Definition plain_action (a : action) : bool :=
  match a with
  | Append s | Rotate _ s => forallb plain s
  | Truncate _ | Remove => true
  end.

Definition plain_schedule (sched : list (list action)) : Prop :=
  forallb (forallb plain_action) sched = true.

(** Every file of the world holds plain text. *)
Definition plain_world (w : world) : Prop :=
  map_Forall (λ _ s, plain_text s) (files w).

(** *** The identity checks of a run *)

(** The generator is about to call [GetInodeAndSize] (line 52 or 66). *)
Definition at_check (pc : exn + fpc) : bool :=
  match pc with
  | inr (AtStat _) | inr (AtRecheck _) => true
  | _ => false
  end.

(** The inode the path names and the length of that file. *)
Definition identity (w : world) : option (Z * Z) :=
  match path w with
  | Some i => Some (i, Z.of_nat (length (contents w i)))
  | None => None
  end.

(** The identities the file had at the checks of a run, in order: for
    every step taken from a point where [GetInodeAndSize] is called, what
    the path named at that moment and how long the file was. This is
    read off the worlds of the run, not off the variables of the
    generator. *)
Fixpoint checked (sched : list (list action)) (σ : fsys) : list (Z * Z) :=
  match sched with
  | [] => []
  | slot :: rest =>
      (if at_check (f_pc σ)
       then option_list (identity (acts (f_world σ) slot))
       else [])
      ++ checked rest (fstep σ slot)
  end.

(** What the generator has recorded of the checks [chk] made so far:
    [origInode] and [lastSize] are the inode and the size found at the
    latest of them. *)
Definition recorded (chk : list (Z * Z)) (p : fpc) : Prop :=
  match p with
  | AtStat _ => chk = []
  | AtOpen _ ino size => chk = [(ino, size)]
  | AtReadline g | AtRecheck g => last chk = Some (origInode g, lastSize g)
  end.

(** ** Sample data *)

Definition sample_world (s : text) : world := World (Some 7) {[ 7 := s ]}.

Definition sample_gen (ign : bool) : gen := Gen 7 3 (Handle 7 3) [] ign.

Definition sample_resolver : gmap string string :=
  {[ "127.0.0.1" := "localhost"; "127.0.1.1" := "localhost" ]}.

Definition sample_entry : RawRecord :=
  Entry (Some (PStr "example.com:80")) (Some (PInt 80)) (Some (PStr "127.0.0.1"))
        (Some (PStr "/index.html")) (Some (PInt 200)) (Some (PInt 512)).

(** A stand-in for the parser: it rejects the line "bad". *)
Definition sample_parser (l : text) : exn + option RawRecord :=
  if bool_decide (l = t "bad" ++ [LF])
  then inl (OtherException "InvalidEntryError")
  else inr (Some sample_entry).

Definition sample_exporter (ign hist : bool) : ApacheLogExporter :=
  Exporter sample_parser sample_resolver ign hist (λ _ _, None) (λ _ _, None).

(** ** Vocabulary of the further properties *)

(** One line of the file: text without a newline, then the newline. *)
Definition is_line (l : text) : Prop := ∃ r, no_nl r ∧ l = r ++ [LF].

(** The generator stands in its loop with its handle at or past the end
    of the file the path names, a file no shorter than at the last
    check: the situation after a truncation that the check misses. *)
Record stale (i : Z) (w : world) (p : fpc) (g : gen) : Prop := Stale {
  st_pc : p = AtReadline g ∨ p = AtRecheck g;
  st_path : path w = Some i;
  st_handle : h_inode (file g) = i;
  st_orig : origInode g = i;
  st_size : lastSize g ≤ Z.of_nat (length (contents w i));
  st_pos : (length (contents w i) ≤ h_pos (file g))%nat
}.

Definition is_yield (ev : event) : bool :=
  match ev with EYield _ => true | _ => false end.

Definition is_summary (ev : event) : bool :=
  match ev with ESummary _ _ => true | _ => false end.

Definition is_warn (ev : event) : bool :=
  match ev with EWarn _ _ => true | _ => false end.

(** How many events of a trace satisfy [f]. *)
Definition count (f : event → bool) (tr : list event) : nat :=
  length (List.filter f tr).

(** ** The configuration, lines 151-206 *)

(** What [yaml.load] hands back, as far as the program looks at it:
    [None], booleans, integers, strings, lists and mappings. A mapping
    is kept by its string keys (a key that is not a string is never
    equal to a part of a dotted name). Floats and dates are not
    modelled. *)
#[warnings="-register-all"]
Inductive yaml : Type :=
| YNone
| YBool (b : bool)
| YInt (n : Z)
| YStr (s : string)
| YList (l : list yaml)
| YMap (m : gmap string yaml).

Definition TypeError : exn := OtherException "TypeError".
Definition KeyError : exn := OtherException "KeyError".

(** Sequencing of computations that may raise. *)
Definition bind_exn {A B : Type} (x : exn + A) (f : A → exn + B) : exn + B :=
  match x with
  | inl e => inl e
  | inr a => f a
  end.

(** [name.split(".")]: every dot separates, empty parts are kept. *)
Fixpoint split_dot (s : string) : list string :=
  match s with
  | EmptyString => [EmptyString]
  | String c r =>
      if Ascii.eqb c "."%char then EmptyString :: split_dot r
      else match split_dot r with
           | [] => [String c EmptyString]
           | part :: parts => String c part :: parts
           end
  end.

(** [part in s] for two strings: [part] occurs in [s]. *)
Fixpoint occurs_in (part s : string) : bool :=
  String.prefix part s ||
  match s with
  | EmptyString => false
  | String _ r => occurs_in part r
  end.

Definition is_str (part : string) (v : yaml) : bool :=
  match v with
  | YStr s => bool_decide (s = part)
  | _ => false
  end.

(** [part in yml] *)
Definition py_in (part : string) (yml : yaml) : exn + bool :=
  match yml with
  | YMap m => inr (bool_decide (is_Some (m !! part)))
  | YList l => inr (existsb (is_str part) l)
  | YStr s => inr (occurs_in part s)
  | YNone | YBool _ | YInt _ => inl TypeError
  end.

(** [yml[part]], [part] a string *)
Definition py_getitem (yml : yaml) (part : string) : exn + yaml :=
  match yml with
  | YMap m =>
      match m !! part with
      | Some v => inr v
      | None => inl KeyError
      end
  | _ => inl TypeError
  end.

(** The loop of [getParamDefault], lines 153-157. *)
Fixpoint getParamDefault_parts (yml : yaml) (parts : list string) (dflt : yaml)
  : exn + yaml :=
  match parts with
  | [] => inr yml
  | part :: parts' =>
      bind_exn (py_in part yml) (λ found,
        if negb found then inr dflt
        else bind_exn (py_getitem yml part) (λ yml',
          getParamDefault_parts yml' parts' dflt))
  end.

(** [getParamDefault(yml, name, default)], lines 151-157 *)
Definition getParamDefault (yml : yaml) (name : string) (dflt : yaml) : exn + yaml :=
  getParamDefault_parts yml (split_dot name) dflt.

(** [s == True] and [s == False]: a boolean equals itself, and the
    integers 1 and 0 equal [True] and [False]. *)
Definition py_eq_bool (s : yaml) (b : bool) : bool :=
  match s with
  | YBool c => Bool.eqb c b
  | YInt n => Z.eqb n (if b then 1 else 0)
  | _ => false
  end.

(** [s.lower()], on the letters A to Z. *)
Definition lower_ascii (c : ascii) : ascii :=
  let n := nat_of_ascii c in
  if (65 <=? n)%nat && (n <=? 90)%nat then ascii_of_nat (n + 32) else c.

Fixpoint lower (s : string) : string :=
  match s with
  | EmptyString => EmptyString
  | String c r => String (lower_ascii c) (lower r)
  end.

(** [parseBool(s)], lines 160-167. A value that is not a string has no
    [lower]. *)
Definition parseBool (s : yaml) : exn + yaml :=
  if py_eq_bool s true || py_eq_bool s false then inr s
  else
    match s with
    | YStr x =>
        if bool_decide (lower x = "true") || bool_decide (lower x = "on")
           || bool_decide (lower x = "yes")
        then inr (YBool true)
        else if bool_decide (x = "1") then inr (YBool true)
        else inr (YBool false)
    | _ => inl AttributeError
    end.

(** [int(v)]; the reading of a string as a number is left to
    [int_str]. *)
Definition py_int (int_str : string → exn + Z) (v : yaml) : exn + Z :=
  match v with
  | YInt n => inr n
  | YBool b => inr (if b then 1 else 0)
  | YStr s => int_str s
  | YNone | YList _ | YMap _ => inl TypeError
  end.

(** The six format strings of the [apachelogs] library. *)
Record apachelogs := Apachelogs {
  COMBINED : string;
  COMBINED_DEBIAN : string;
  COMMON : string;
  COMMON_DEBIAN : string;
  VHOST_COMBINED : string;
  VHOST_COMMON : string
}.

(** [formatMap], lines 195-202 *)
Definition formatMap (a : apachelogs) : gmap string string :=
  {[ "COMBINED" := COMBINED a;
     "COMBINED_DEBIAN" := COMBINED_DEBIAN a;
     "COMMON" := COMMON a;
     "COMMON_DEBIAN" := COMMON_DEBIAN a;
     "VHOST_COMBINED" := VHOST_COMBINED a;
     "VHOST_COMMON" := VHOST_COMMON a ]}.

(** [formatMap.get(v, v)], line 204: lists and mappings cannot be keys. *)
Definition formatMap_get (a : apachelogs) (v : yaml) : exn + yaml :=
  match v with
  | YStr s => inr (match formatMap a !! s with Some f => YStr f | None => v end)
  | YList _ | YMap _ => inl TypeError
  | YNone | YBool _ | YInt _ => inr v
  end.

Definition quote : string := String "034"%char EmptyString.

(** The defaults of lines 175-182. *)
Definition default_filename : yaml := YStr "apache-log-exporter-api.yaml".

Definition default_format : yaml :=
  YStr ("%v:%p %h %l %U %u %t " +:+ quote +:+ "%r" +:+ quote +:+ " %>s %O "
        +:+ quote +:+ "%{Referer}i" +:+ quote +:+ " "
        +:+ quote +:+ "%{User-Agent}i" +:+ quote).

Definition default_ignoreExisting : yaml := YStr "true".

Definition default_port : yaml := YInt 9181.

Definition default_resolver : yaml :=
  YMap {[ "127.0.0.1" := YStr "localhost"; "127.0.1.1" := YStr "localhost" ]}.

Record settings := Settings {
  set_fn : yaml;
  set_format : yaml;
  set_ignoreExisting : yaml;
  set_port : Z;
  set_resolver : yaml
}.

(** [get_settings], lines 187-206, from the loaded configuration on. *)
Definition get_settings (a : apachelogs) (int_str : string → exn + Z) (cfg : yaml)
  : exn + settings :=
  bind_exn (getParamDefault cfg "input.filename" default_filename) (λ fn,
  bind_exn (getParamDefault cfg "input.format" default_format) (λ format,
  bind_exn (getParamDefault cfg "input.ignoreExisting" default_ignoreExisting) (λ ign,
  bind_exn (parseBool ign) (λ ignoreExisting,
  bind_exn (getParamDefault cfg "output.port" default_port) (λ port,
  bind_exn (py_int int_str port) (λ port',
  bind_exn (getParamDefault cfg "resolver" default_resolver) (λ resolver,
  bind_exn (formatMap_get a format) (λ format',
  inr (Settings fn format' ignoreExisting port' resolver))))))))).

(** The value found by following [parts] down nested mappings. *)
Inductive at_path : list string → yaml → yaml → Prop :=
| at_path_here v : at_path [] v v
| at_path_down part parts m sub v :
    m !! part = Some sub → at_path parts sub v →
    at_path (part :: parts) (YMap m) v.

(** Following [parts] down nested mappings comes to a mapping without
    the next key. *)
Inductive missing_at : list string → yaml → Prop :=
| missing_here part parts m :
    m !! part = None → missing_at (part :: parts) (YMap m)
| missing_down part parts m sub :
    m !! part = Some sub → missing_at parts sub →
    missing_at (part :: parts) (YMap m).

(** Following [parts] down nested mappings comes, with parts left, to a
    value that is [None], a boolean or an integer. *)
Inductive scalar_at : list string → yaml → Prop :=
| scalar_here part parts v :
    v = YNone ∨ (∃ b, v = YBool b) ∨ (∃ n, v = YInt n) →
    scalar_at (part :: parts) v
| scalar_down part parts m sub :
    m !! part = Some sub → scalar_at parts sub →
    scalar_at (part :: parts) (YMap m).

Definition dot_free (s : string) : Prop := "."%char ∉ String.list_ascii_of_string s.

(** ** Text *)

Lemma upto_newline_no_nl (s : text) : no_nl s → upto_newline s = s.
Proof.
  unfold no_nl. induction s as [|c r IH]; simpl; [done|].
  intros Hn. apply not_elem_of_cons in Hn as [Hc Hr].
  destruct (Ascii.eqb_spec c LF) as [->|_]; [done|].
  by rewrite IH.
Qed.

Lemma upto_newline_line (s r : text) :
  no_nl s → upto_newline (s ++ LF :: r) = s ++ [LF].
Proof.
  unfold no_nl. induction s as [|c s IH]; cbn [upto_newline app]; intros Hn.
  - by rewrite Ascii.eqb_refl.
  - apply not_elem_of_cons in Hn as [Hc Hs].
    destruct (Ascii.eqb_spec c LF) as [->|_]; [done|].
    by rewrite IH.
Qed.

Lemma upto_newline_nil (s : text) : upto_newline s = [] → s = [].
Proof. destruct s as [|c r]; simpl; [done|]. by destruct (Ascii.eqb c LF). Qed.

(** [readline] returns a prefix of the unread text: either all of it,
    without a newline, or one line with its newline. *)
Lemma upto_newline_cases (s : text) :
  (upto_newline s = s ∧ no_nl s) ∨
  (∃ l r, no_nl l ∧ s = l ++ LF :: r ∧ upto_newline s = l ++ [LF]).
Proof.
  unfold no_nl. induction s as [|c s IH]; simpl.
  - left. split; [done|]. apply not_elem_of_nil.
  - destruct (Ascii.eqb_spec c LF) as [->|Hc].
    + right. exists [], s. split; [apply not_elem_of_nil|done].
    + destruct IH as [[-> Hn]|(l & r & Hl & -> & ->)].
      * left. split; [done|]. by apply not_elem_of_cons.
      * right. exists (c :: l), r. split; [by apply not_elem_of_cons|done].
Qed.

Lemma upto_newline_prefix (s : text) : ∃ r, s = upto_newline s ++ r.
Proof.
  destruct (upto_newline_cases s) as [[-> _]|(l & r & _ & -> & ->)].
  - exists []. by rewrite app_nil_r.
  - exists r. by rewrite <- app_assoc.
Qed.

Lemma upto_newline_length (s : text) : (length (upto_newline s) ≤ length s)%nat.
Proof.
  destruct (upto_newline_prefix s) as [r Hr]. rewrite Hr at 2.
  rewrite length_app. lia.
Qed.

Lemma endswith_nl_snoc (s : text) : endswith_nl (s ++ [LF]) = true.
Proof. unfold endswith_nl. by rewrite last_snoc, bool_decide_eq_true. Qed.

Lemma endswith_nl_no_nl (s : text) : no_nl s → endswith_nl s = false.
Proof.
  unfold endswith_nl, no_nl. intros Hn. apply bool_decide_eq_false. intros Hl.
  apply Hn. apply last_Some in Hl as [l' ->]. set_solver.
Qed.

Lemma no_nl_app (a b : text) : no_nl (a ++ b) ↔ no_nl a ∧ no_nl b.
Proof. unfold no_nl. rewrite not_elem_of_app. done. Qed.

Lemma no_nl_nil : no_nl [].
Proof. apply not_elem_of_nil. Qed.

Lemma segment_app_l (k n : nat) (c a : text) :
  (n ≤ length c)%nat → segment k n (c ++ a) = segment k n c.
Proof.
  intros Hn. unfold segment.
  destruct (decide (k ≤ n)%nat) as [Hk|Hk].
  - rewrite drop_app_le by lia. rewrite take_app_le; [done|].
    rewrite length_drop. lia.
  - replace (n - k)%nat with 0%nat by lia. done.
Qed.

Lemma segment_snoc (k n : nat) (c : text) (m : nat) :
  (k ≤ n)%nat → segment k n c ++ take m (drop n c) = segment k (n + m) c.
Proof.
  intros Hk. unfold segment.
  replace (drop n c) with (drop (n - k) (drop k c)).
  - rewrite take_take_drop. f_equal. lia.
  - rewrite drop_drop. f_equal. lia.
Qed.

Lemma upto_newline_take (s : text) :
  upto_newline s = take (length (upto_newline s)) s.
Proof.
  destruct (upto_newline_prefix s) as [r Hr]. rewrite Hr at 3.
  by rewrite take_app_length.
Qed.

(** ** The file under appends *)

Lemma contents_insert (w : world) (i : Z) (s : text) (o : option Z) :
  contents (World o (<[i := s]> (files w))) i = s.
Proof. unfold contents. simpl. by rewrite lookup_insert_eq. Qed.

Lemma acts_append_only (w : world) (slot : list action) (i : Z) :
  path w = Some i → append_only slot →
  path (acts w slot) = Some i ∧
  contents (acts w slot) i = contents w i ++ appended slot.
Proof.
  unfold acts, append_only, appended. revert w.
  induction slot as [|a slot IH]; intros w Hp Hs; simpl.
  - by rewrite app_nil_r.
  - apply Forall_cons in Hs as [[s Ha] Hs].
    destruct a; simplify_eq/=. rewrite Hp.
    destruct (IH (World (Some i) (<[i := contents w i ++ s]> (files w)))) as [Hp' Hc']; [done..|].
    split; [done|]. rewrite Hc', contents_insert. by rewrite <- app_assoc.
Qed.

(** A step of a following generator under appends: it raises nothing,
    goes on following, and is one of the five moves. *)
Lemma fstep_following (i : Z) (σ : fsys) (p : fpc) (g : gen) (slot : list action) :
  f_pc σ = inr p → following i (f_world σ) p g → append_only slot →
  ∃ evs p' g',
    fstep σ slot = FSys (acts (f_world σ) slot) (inr p') (f_trace σ ++ evs) ∧
    contents (acts (f_world σ) slot) i = contents (f_world σ) i ++ appended slot ∧
    move (contents (acts (f_world σ) slot) i) g p evs p' ∧
    following i (acts (f_world σ) slot) p' g'.
Proof.
  intros Hpc [Hp Hpath Hh Ho Hsz Hpos] Hslot.
  destruct (acts_append_only _ _ _ Hpath Hslot) as [Hpath' Hc'].
  set (w' := acts (f_world σ) slot) in *.
  assert (Hlen : (length (contents (f_world σ) i) ≤ length (contents w' i))%nat).
  { rewrite Hc', length_app. lia. }
  unfold fstep. rewrite Hpc. fold w'. subst i.
  destruct Hp as [->|[-> Hflag]].
  - (* readline *)
    cbn [follow_step readline]. unfold unread.
    remember (upto_newline (drop (h_pos (file g)) (contents w' (h_inode (file g)))))
      as tmp eqn:Etmp.
    assert (Htmp : (h_pos (file g) + length tmp
                    ≤ length (contents w' (h_inode (file g))))%nat).
    { subst tmp.
      pose proof (upto_newline_length
        (drop (h_pos (file g)) (contents w' (h_inode (file g))))) as Hl.
      rewrite length_drop in Hl. lia. }
    unfold feed. destruct (decide (tmp = [])) as [He|He].
    + rewrite bool_decide_eq_true_2 by done. cbn [negb].
      rewrite He. cbn [length].
      eexists _, _, _. split; [reflexivity|]. split; [done|]. split.
      * apply move_idle. apply upto_newline_nil. by rewrite <- Etmp.
      * constructor; [right; split; reflexivity|cbn..]; try done; try lia.
    + rewrite bool_decide_eq_false_2 by done. cbn [negb].
      destruct (endswith_nl (line g ++ tmp)) eqn:Hend.
      * destruct (ignoreExisting g) eqn:Hflag; cbn [negb].
        -- eexists _, _, _. split; [reflexivity|]. split; [done|]. split.
           ++ by apply move_discard.
           ++ constructor; [left; reflexivity|cbn..]; try done; try lia.
        -- eexists _, _, _. split; [reflexivity|]. split; [done|]. split.
           ++ by apply move_yield.
           ++ constructor; [left; reflexivity|cbn..]; try done; try lia.
      * eexists _, _, _. split; [reflexivity|]. split; [done|]. split.
        -- by apply move_partial.
        -- constructor; [left; reflexivity|cbn..]; try done; try lia.
  - (* recheck *)
    cbn [follow_step]. unfold GetInodeAndSize, lstat, recheck. rewrite Hpath'.
    replace (h_inode (file g) =? origInode g) with true
      by (symmetry; by apply Z.eqb_eq).
    cbn [negb].
    destruct (Z.ltb_spec (Z.of_nat (length (contents w' (h_inode (file g)))))
                (lastSize g)) as [Hlt|Hge]; [lia|].
    eexists _, _, _. split; [reflexivity|]. split; [done|]. split.
    + apply move_recheck.
    + constructor; [left; reflexivity|cbn..]; try done; try lia.
Qed.

Lemma reads_app (tr evs : list event) : reads (tr ++ evs) = reads tr ++ reads evs.
Proof. apply omap_app. Qed.

Lemma yields_app (tr evs : list event) : yields (tr ++ evs) = yields tr ++ yields evs.
Proof. apply omap_app. Qed.

Lemma frun_cons (slot : list action) (sched : list (list action)) (σ : fsys) :
  frun (slot :: sched) σ = frun sched (fstep σ slot).
Proof. done. Qed.

Lemma frun_app (s1 s2 : list (list action)) (σ : fsys) :
  frun (s1 ++ s2) σ = frun s2 (frun s1 σ).
Proof. apply foldl_app. Qed.

(** The first two steps of [follow] on an existing file: the identity is
    taken, the file is opened at offset 0. *)
Lemma follow_opens (w : world) (i : Z) (ign : bool) (tr : list event)
    (s1 s2 : list action) :
  path w = Some i → append_only s1 → append_only s2 →
  let w1 := acts w s1 in
  let w2 := acts w1 s2 in
  let g := Gen i (Z.of_nat (length (contents w1 i))) (Handle i 0) [] ign in
  frun [s1; s2] (FSys w (inr (follow ign)) tr)
    = FSys w2 (inr (AtReadline g)) (tr ++ [EFollow ign]) ∧
  following i w2 (AtReadline g) g.
Proof.
  intros Hp H1 H2 w1 w2 g.
  destruct (acts_append_only _ _ _ Hp H1) as [Hp1 Hc1]. fold w1 in Hp1, Hc1.
  destruct (acts_append_only _ _ _ Hp1 H2) as [Hp2 Hc2]. fold w2 in Hp2, Hc2.
  split.
  - unfold frun, follow. cbn [foldl]. unfold fstep at 2. cbn [f_pc f_world f_trace follow_step].
    fold w1. unfold GetInodeAndSize, lstat. rewrite Hp1.
    unfold fstep. cbn [f_pc f_world f_trace follow_step]. fold w2. unfold open.
    rewrite Hp2. by rewrite app_nil_r.
  - constructor; [by left|cbn..]; try done.
    + rewrite Hc2, length_app. lia.
    + lia.
Qed.

(** Under appends, what has been read so far is the file up to the read
    offset. *)
Lemma consumed_step (i : Z) (σ : fsys) (p : fpc) (g : gen) (slot : list action) :
  f_pc σ = inr p → following i (f_world σ) p g → append_only slot →
  concat (reads (f_trace σ)) = take (offset p) (contents (f_world σ) i) →
  ∃ p' g', f_pc (fstep σ slot) = inr p' ∧
    following i (f_world (fstep σ slot)) p' g' ∧
    concat (reads (f_trace (fstep σ slot)))
      = take (offset p') (contents (f_world (fstep σ slot)) i).
Proof.
  intros Hpc Hf Hslot Hr.
  destruct (fstep_following _ _ _ _ _ Hpc Hf Hslot) as (evs & p' & g' & -> & Hc & Hm & Hf').
  exists p', g'. cbn [f_pc f_world f_trace]. split; [done|]. split; [done|].
  rewrite reads_app, concat_app, Hr, Hc.
  pose proof (fl_pos _ _ _ _ Hf) as Hpos.
  assert (Hg : offset p = h_pos (file g)).
  { by destruct (fl_pc _ _ _ _ Hf) as [->|[-> _]]. }
  rewrite Hg. rewrite Hc in Hm.
  set (c := contents (f_world σ) i) in *. set (a := appended slot) in *.
  assert (Hread : ∀ tmp, tmp = upto_newline (drop (h_pos (file g)) (c ++ a)) →
            take (h_pos (file g)) c ++ tmp
            = take (h_pos (file g) + length tmp) (c ++ a)).
  { intros tmp ->. rewrite upto_newline_take at 1.
    rewrite <- (take_app_le c a (h_pos (file g))) by done.
    apply take_take_drop. }
  inversion Hm; subst; unfold reads; cbn [omap list_omap concat offset file h_pos app];
    rewrite ?app_nil_r, ?Nat.add_0_r; try (by apply Hread); by rewrite take_app_le.
Qed.

Lemma consumed_run (i : Z) (sched : list (list action)) (σ : fsys) (p : fpc) (g : gen) :
  f_pc σ = inr p → following i (f_world σ) p g → Forall append_only sched →
  concat (reads (f_trace σ)) = take (offset p) (contents (f_world σ) i) →
  ∃ p' g', f_pc (frun sched σ) = inr p' ∧
    following i (f_world (frun sched σ)) p' g' ∧
    concat (reads (f_trace (frun sched σ)))
      = take (offset p') (contents (f_world (frun sched σ)) i).
Proof.
  revert σ p g. induction sched as [|slot sched IH]; intros σ p g Hpc Hf Hs Hr.
  - by exists p, g.
  - apply Forall_cons in Hs as [Hslot Hs]. rewrite frun_cons.
    destruct (consumed_step _ _ _ _ _ Hpc Hf Hslot Hr) as (p' & g' & Hpc' & Hf' & Hr').
    by eapply IH.
Qed.

(** Under appends, with [ignoreExisting] false, what has been read has
    been yielded, in order, or is in the buffer. *)
Lemma delivered_step (i : Z) (σ : fsys) (p : fpc) (g : gen) (slot : list action) :
  f_pc σ = inr p → following i (f_world σ) p g → append_only slot →
  skipping p = false →
  concat (yields (f_trace σ)) ++ buffer p = take (offset p) (contents (f_world σ) i) →
  ∃ p' g', f_pc (fstep σ slot) = inr p' ∧
    following i (f_world (fstep σ slot)) p' g' ∧
    skipping p' = false ∧
    concat (yields (f_trace (fstep σ slot))) ++ buffer p'
      = take (offset p') (contents (f_world (fstep σ slot)) i).
Proof.
  intros Hpc Hf Hslot Hsk Hr.
  destruct (fstep_following _ _ _ _ _ Hpc Hf Hslot) as (evs & p' & g' & -> & Hc & Hm & Hf').
  exists p', g'. cbn [f_pc f_world f_trace]. split; [done|]. split; [done|].
  rewrite yields_app, concat_app, Hc.
  pose proof (fl_pos _ _ _ _ Hf) as Hpos.
  assert (Hg : offset p = h_pos (file g) ∧ buffer p = line g ∧ skipping p = ignoreExisting g).
  { by destruct (fl_pc _ _ _ _ Hf) as [->|[-> _]]. }
  destruct Hg as (Ho & Hb & Hs). rewrite Ho, Hb in Hr. rewrite Hs in Hsk. clear Ho Hb Hs.
  rewrite Hc in Hm.
  set (c := contents (f_world σ) i) in *. set (a := appended slot) in *.
  assert (Hread : ∀ tmp, tmp = upto_newline (drop (h_pos (file g)) (c ++ a)) →
            concat (yields (f_trace σ)) ++ line g ++ tmp
            = take (h_pos (file g) + length tmp) (c ++ a)).
  { intros tmp ->. rewrite app_assoc, Hr. rewrite upto_newline_take at 1.
    rewrite <- (take_app_le c a (h_pos (file g))) by done.
    apply take_take_drop. }
  inversion Hm; subst; unfold yields at 2;
    cbn [omap list_omap concat offset buffer skipping file line h_pos ignoreExisting app];
    rewrite ?app_nil_r, ?Nat.add_0_r; try congruence.
  - split; [done|]. by rewrite take_app_le.
  - split; [done|]. by rewrite take_app_le.
  - split; [done|]. by apply Hread.
  - split; [done|]. by apply Hread.
Qed.

Lemma delivered_run (i : Z) (sched : list (list action)) (σ : fsys) (p : fpc) (g : gen) :
  f_pc σ = inr p → following i (f_world σ) p g → Forall append_only sched →
  skipping p = false →
  concat (yields (f_trace σ)) ++ buffer p = take (offset p) (contents (f_world σ) i) →
  ∃ p', f_pc (frun sched σ) = inr p' ∧
    concat (yields (f_trace (frun sched σ))) ++ buffer p'
      = take (offset p') (contents (f_world (frun sched σ)) i).
Proof.
  revert σ p g. induction sched as [|slot sched IH]; intros σ p g Hpc Hf Hs Hsk Hr.
  - by exists p.
  - apply Forall_cons in Hs as [Hslot Hs]. rewrite frun_cons.
    destruct (delivered_step _ _ _ _ _ Hpc Hf Hslot Hsk Hr)
      as (p' & g' & Hpc' & Hf' & Hsk' & Hr').
    by eapply IH.
Qed.

(** ** Partial lines *)

(** While only text without a newline arrives, nothing is yielded and the
    line in progress grows by what arrived. *)
Lemma buffering_step (i : Z) (σ : fsys) (p : fpc) (g : gen) (slot : list action) :
  f_pc σ = inr p → following i (f_world σ) p g → partial_only slot →
  no_nl (pending (f_world σ) p) →
  ∃ p' g', f_pc (fstep σ slot) = inr p' ∧
    following i (f_world (fstep σ slot)) p' g' ∧
    pending (f_world (fstep σ slot)) p' = pending (f_world σ) p ++ appended slot ∧
    yields (f_trace (fstep σ slot)) = yields (f_trace σ) ∧
    (ignoreExisting g = false → ignoreExisting g' = false).
Proof.
  intros Hpc Hf [Hslot Hna] Hn.
  destruct (fstep_following _ _ _ _ _ Hpc Hf Hslot) as (evs & p' & g' & -> & Hc & Hm & Hf').
  exists p', g'. cbn [f_pc f_world f_trace]. split; [done|]. split; [done|].
  rewrite yields_app.
  pose proof (fl_pos _ _ _ _ Hf) as Hpos. pose proof (fl_handle _ _ _ _ Hf) as Hh.
  assert (Hpend : pending (f_world σ) p = line g ++ drop (h_pos (file g)) (contents (f_world σ) i)).
  { destruct (fl_pc _ _ _ _ Hf) as [->|[-> _]]; unfold pending, unread; by rewrite Hh. }
  rewrite Hpend in *.
  assert (Hg' : p' = AtReadline g' ∨ p' = AtRecheck g').
  { destruct (fl_pc _ _ _ _ Hf') as [->|[-> _]]; auto. }
  assert (Hpend' : pending (acts (f_world σ) slot) p'
            = line g' ++ drop (h_pos (file g')) (contents (acts (f_world σ) slot) i)).
  { destruct Hg' as [->| ->]; unfold pending, unread; by rewrite (fl_handle _ _ _ _ Hf'). }
  rewrite Hpend'. rewrite Hc in *. clear Hpend Hpend'.
  set (c := contents (f_world σ) i) in *. set (a := appended slot) in *.
  assert (Hd : drop (h_pos (file g)) (c ++ a) = drop (h_pos (file g)) c ++ a).
  { by rewrite drop_app_le. }
  assert (Hnn : no_nl (line g ++ drop (h_pos (file g)) (c ++ a))).
  { rewrite Hd, app_assoc. apply no_nl_app. done. }
  inversion Hm; subst; destruct Hg' as [Hg'|Hg']; simplify_eq;
    unfold yields; cbn [omap list_omap line file h_pos ignoreExisting];
    rewrite ?app_nil_r, ?Nat.add_0_r.
  - by rewrite Hd, app_assoc.
  - by rewrite Hd, app_assoc.
  - apply no_nl_app in Hnn as [_ Hnn].
    rewrite (upto_newline_no_nl _ Hnn).
    rewrite <- drop_drop, drop_all, app_nil_r. by rewrite Hd, !app_assoc.
  - apply no_nl_app in Hnn as [Hl Hnn].
    rewrite (upto_newline_no_nl _ Hnn) in *.
    rewrite endswith_nl_no_nl in *; [done|]. by apply no_nl_app.
  - apply no_nl_app in Hnn as [Hl Hnn].
    rewrite (upto_newline_no_nl _ Hnn) in *.
    rewrite endswith_nl_no_nl in *; [done|]. by apply no_nl_app.
Qed.

Lemma buffering_run (i : Z) (sched : list (list action)) (σ : fsys) (p : fpc) (g : gen) :
  f_pc σ = inr p → following i (f_world σ) p g → Forall partial_only sched →
  no_nl (pending (f_world σ) p) →
  ∃ p' g', f_pc (frun sched σ) = inr p' ∧
    following i (f_world (frun sched σ)) p' g' ∧
    pending (f_world (frun sched σ)) p' = pending (f_world σ) p ++ arrived sched ∧
    yields (f_trace (frun sched σ)) = yields (f_trace σ) ∧
    (ignoreExisting g = false → ignoreExisting g' = false).
Proof.
  revert σ p g. induction sched as [|slot sched IH]; intros σ p g Hpc Hf Hs Hn.
  - exists p, g. unfold arrived. cbn. by rewrite app_nil_r.
  - apply Forall_cons in Hs as [Hslot Hs]. rewrite frun_cons.
    destruct (buffering_step _ _ _ _ _ Hpc Hf Hslot Hn)
      as (p1 & g1 & Hpc1 & Hf1 & Hp1 & Hy1 & Hi1).
    destruct (IH (fstep σ slot) p1 g1) as (p2 & g2 & Hpc2 & Hf2 & Hp2 & Hy2 & Hi2); try done.
    { rewrite Hp1. apply no_nl_app. split; [done|]. apply Hslot. }
    exists p2, g2. split; [done|]. split; [done|]. split; [|split].
    + rewrite Hp2, Hp1. unfold arrived. cbn. by rewrite app_assoc.
    + by rewrite Hy2.
    + auto.
Qed.

Lemma acts_nil (w : world) : acts w [] = w.
Proof. done. Qed.

Lemma append_only_one (s : text) : append_only [Append s].
Proof. apply Forall_singleton. by eexists. Qed.

Lemma appended_one (s : text) : appended [Append s] = s.
Proof. unfold appended. cbn. by rewrite app_nil_r. Qed.

Lemma partial_only_nil : partial_only [].
Proof. split; [apply Forall_nil_2|apply no_nl_nil]. Qed.


Lemma following_vars (i : Z) (w : world) (g g' : gen) :
  following i w (AtReadline g) g' → g' = g.
Proof. intros Hf. by destruct (fl_pc _ _ _ _ Hf) as [Heq|[Heq _]]; simplify_eq. Qed.

Lemma pending_following (i : Z) (w : world) (p : fpc) (g : gen) :
  following i w p g →
  pending w p = line g ++ drop (h_pos (file g)) (contents w i) ∧
  skipping p = ignoreExisting g.
Proof.
  intros Hf. destruct (fl_pc _ _ _ _ Hf) as [->|[-> _]];
    unfold pending, unread; by rewrite (fl_handle _ _ _ _ Hf).
Qed.


(** ** Existing content *)

Lemma read_within_existing (pre c : text) (pos : nat) :
  whole_lines pre → pre `prefix_of` c → (pos < length pre)%nat →
  ∃ l, upto_newline (drop pos c) = l ++ [LF].
Proof.
  intros [->|Hl] [rest ->] Hpos; [cbn in Hpos; lia|].
  apply last_Some in Hl as [q ->]. rewrite length_app in Hpos. cbn in Hpos.
  rewrite <- app_assoc. rewrite drop_app_le by lia. cbn [app].
  destruct (upto_newline_cases (drop pos q ++ LF :: rest)) as [[_ Hn]|(l & r & _ & _ & ->)].
  - exfalso. apply Hn. set_solver.
  - by exists l.
Qed.

Lemma past_existing_step (pre : text) (i : Z) (σ : fsys) (p : fpc) (g : gen)
    (slot : list action) :
  whole_lines pre →
  f_pc σ = inr p → following i (f_world σ) p g → append_only slot →
  past_existing pre i σ p →
  ∃ p' g', f_pc (fstep σ slot) = inr p' ∧
    following i (f_world (fstep σ slot)) p' g' ∧
    past_existing pre i (fstep σ slot) p'.
Proof.
  intros Hpre Hpc Hf Hslot [Hpx (k & Hk & Hseg) Hskip Hcatch].
  destruct (fstep_following _ _ _ _ _ Hpc Hf Hslot) as (evs & p' & g' & -> & Hc & Hm & Hf').
  exists p', g'. cbn [f_pc f_world f_trace]. split; [done|]. split; [done|].
  pose proof (fl_pos _ _ _ _ Hf) as Hpos.
  assert (Hp : offset p = h_pos (file g) ∧ buffer p = line g ∧ skipping p = ignoreExisting g).
  { by destruct (fl_pc _ _ _ _ Hf) as [->|[-> _]]. }
  destruct Hp as (Ho & Hb & Hs). rewrite Ho, Hb, Hs in *. clear Ho Hb Hs.
  assert (Hpx' : pre `prefix_of` contents (acts (f_world σ) slot) i).
  { rewrite Hc. by apply prefix_app_r. }
  pose proof (prefix_length _ _ Hpx') as Hlen'.
  set (c := contents (f_world σ) i) in *.
  set (c' := contents (acts (f_world σ) slot) i) in *.
  assert (Hold : ∀ n, (n ≤ h_pos (file g))%nat → segment k n c' = segment k n c).
  { intros n Hn. rewrite Hc. apply segment_app_l. lia. }
  assert (Hread : ∀ tmp, tmp = upto_newline (drop (h_pos (file g)) c') →
            (k ≤ h_pos (file g))%nat →
            concat (yields (f_trace σ)) ++ line g ++ tmp
            = segment k (h_pos (file g) + length tmp) c').
  { intros tmp Ht Hle. rewrite app_assoc, Hseg.
    rewrite <- Hold by done. rewrite <- segment_snoc by done. f_equal.
    rewrite Ht. apply upto_newline_take. }
  assert (Hwithin : (h_pos (file g) < length pre)%nat →
            ∃ l, upto_newline (drop (h_pos (file g)) c') = l ++ [LF]).
  { by apply read_within_existing. }
  remember (yields (f_trace σ)) as ys eqn:Eys.
  inversion Hm; subst p evs p'; constructor; cbn [f_world f_trace offset buffer skipping
      file line h_pos ignoreExisting]; try done;
    rewrite ?yields_app, <- ?Eys; unfold yields; cbn [omap list_omap];
    rewrite ?app_nil_r, ?Nat.add_0_r; try done.
  - (* re-check *)
    exists k. split; [done|]. by rewrite Hold.
  - (* empty read *)
    exists k. split; [done|]. by rewrite Hold.
  - intros Hlt. exfalso.
    match goal with H : drop _ _ = [] |- _ => apply (f_equal length) in H;
      rewrite length_drop in H; cbn in H end. lia.
  - (* partial line *)
    destruct (decide (h_pos (file g) < length pre)%nat) as [Hlt|Hge].
    + exfalso. destruct (Hcatch Hlt) as [Hb _]. destruct (Hwithin Hlt) as [l Hl].
      match goal with H : endswith_nl _ = false |- _ =>
        rewrite Hb in H; cbn [app] in H; subst tmp; rewrite Hl, endswith_nl_snoc in H end.
      done.
    + exists k. split; [lia|]. apply Hread; [done|lia].
  - intros Hlt. exfalso. destruct (Hcatch ltac:(lia)) as [Hb _].
    destruct (Hwithin ltac:(lia)) as [l Hl].
    match goal with H : endswith_nl _ = false |- _ =>
      rewrite Hb in H; cbn [app] in H; subst tmp; rewrite Hl, endswith_nl_snoc in H end.
    done.
  - (* line yielded *)
    destruct (decide (h_pos (file g) < length pre)%nat) as [Hlt|Hge].
    { destruct (Hcatch Hlt) as [_ Hsk]. congruence. }
    exists k. split; [lia|]. rewrite concat_app. cbn [concat]. rewrite app_nil_r.
    apply Hread; [done|lia].
  - intros Hlt. destruct (Hcatch ltac:(lia)) as [_ Hsk]. congruence.
  - (* line dropped *)
    exists (Nat.max (h_pos (file g) + length tmp) (length pre)).
    split; [lia|]. rewrite Hskip by done. cbn [concat app].
    unfold segment. by replace (_ - _)%nat with 0%nat by lia.
  - intros _. by apply Hskip.
Qed.

Lemma past_existing_run (pre : text) (i : Z) (sched : list (list action)) (σ : fsys)
    (p : fpc) (g : gen) :
  whole_lines pre →
  f_pc σ = inr p → following i (f_world σ) p g → Forall append_only sched →
  past_existing pre i σ p →
  ∃ p' g', f_pc (frun sched σ) = inr p' ∧
    following i (f_world (frun sched σ)) p' g' ∧
    past_existing pre i (frun sched σ) p'.
Proof.
  intros Hpre. revert σ p g.
  induction sched as [|slot sched IH]; intros σ p g Hpc Hf Hs Hinv.
  - by exists p, g.
  - apply Forall_cons in Hs as [Hslot Hs]. rewrite frun_cons.
    destruct (past_existing_step _ _ _ _ _ _ Hpre Hpc Hf Hslot Hinv)
      as (p1 & g1 & Hpc1 & Hf1 & Hinv1).
    by eapply IH.
Qed.

(** ** The ingestion loop *)

Lemma loop_cons (self : ApacheLogExporter) (slot : list action)
    (sched : list (list action)) (σ : sys) :
  foldl (loop_step self) σ (slot :: sched) = foldl (loop_step self) (loop_step self σ slot) sched.
Proof. done. Qed.

(** Once an exception has left [read_log_files], nothing more happens. *)
Lemma loop_terminated (self : ApacheLogExporter) (sched : list (list action)) (σ : sys)
    (e : exn) :
  s_pc σ = inl e →
  s_pc (foldl (loop_step self) σ sched) = inl e ∧
  s_trace (foldl (loop_step self) σ sched) = s_trace σ.
Proof.
  revert σ. induction sched as [|slot sched IH]; intros σ Hpc; [done|].
  rewrite loop_cons.
  destruct (IH (loop_step self σ slot)) as [H1 H2].
  - unfold loop_step. by rewrite Hpc.
  - split; [done|]. rewrite H2. unfold loop_step. by rewrite Hpc.
Qed.

Lemma handle_exn_cases (e : exn) (ign : bool) :
  (recoverable e = true ∧
   handle_exn e ign = ([EPrint e; EBackoff 1], false, inr (follow false))) ∨
  (recoverable e = false ∧ handle_exn e ign = ([], ign, inl e)).
Proof. unfold handle_exn. destruct (recoverable e); auto. Qed.

(** Events of the three parts of a step. *)
Lemma observe_summary_events (self : ApacheLogExporter) (entry : RawRecord) (rh : string) :
  Forall (λ ev, is_follow ev = false ∧ is_histogram ev = false)
    (observe_summary self entry rh).1.
Proof.
  unfold observe_summary.
  repeat case_match; cbn; repeat constructor.
Qed.

Lemma observe_histogram_events (self : ApacheLogExporter) (entry : RawRecord) (rh : string) :
  Forall (λ ev, is_follow ev = false ∧
                (self_enableHistogram self = false → is_histogram ev = false))
    (observe_histogram self entry rh).1.
Proof.
  unfold observe_histogram.
  destruct (self_enableHistogram self) eqn:Hh; repeat case_match; cbn;
    repeat constructor; done.
Qed.

Lemma process_line_events (self : ApacheLogExporter) (l : text) :
  Forall (λ ev, is_follow ev = false ∧
                (self_enableHistogram self = false → is_histogram ev = false))
    (process_line self l).1.
Proof.
  unfold process_line. destruct (parse_line self l) as [e|entry].
  - destruct (is_Exception e); cbn; repeat constructor.
  - unfold observe. destruct (resolve self entry) as [e|rh]; [by constructor|].
    pose proof (observe_summary_events self entry rh) as Hs.
    pose proof (observe_histogram_events self entry rh) as Hh.
    destruct (observe_summary self entry rh) as [evs [e|]]; cbn in *.
    + eapply Forall_impl; [exact Hs|]. intros ev [? ?]. auto.
    + destruct (observe_histogram self entry rh) as [evs' r]; cbn in *.
      apply Forall_app. split; [|done].
      eapply Forall_impl; [exact Hs|]. intros ev [? ?]. auto.
Qed.

Lemma follow_step_events (w : world) (p : fpc) :
  Forall (λ ev, is_histogram ev = false) (follow_step w p).1 ∧
  ((∀ b, p ≠ AtStat b) → Forall (λ ev, is_follow ev = false) (follow_step w p).1).
Proof.
  destruct p as [ign|ign ino sz|g|g]; cbn [follow_step].
  - split; [by repeat constructor|]. intros H. by destruct (H ign).
  - split; intros; constructor.
  - destruct (readline w (file g)) as [tmp f']. unfold feed.
    repeat case_match; cbn; split; intros; by repeat constructor.
  - split; intros; constructor.
Qed.

(** [follow] never goes back to its first line. *)
Lemma follow_step_next (w : world) (p : fpc) (b : bool) :
  (follow_step w p).2 ≠ Next (AtStat b) ∧
  (∀ l, (follow_step w p).2 ≠ Yield l (AtStat b)).
Proof.
  destruct p as [ign|ign ino sz|g|g]; cbn [follow_step];
    try (destruct (readline w (file g)) as [tmp f']; unfold feed);
    unfold recheck; cbn; (split; [|intros l]); repeat case_match; done.
Qed.

(** What a step of the loop adds to the trace. *)
Lemma loop_step_events (P : event → Prop) (self : ApacheLogExporter) (σ : sys)
    (slot : list action) :
  (∀ w p, Forall P (follow_step w p).1) →
  (∀ l, Forall P (process_line self l).1) →
  (∀ e, P (EPrint e)) → P (EBackoff 1) →
  ∃ evs, s_trace (loop_step self σ slot) = s_trace σ ++ evs ∧ Forall P evs.
Proof.
  intros Hfollow Hline Hprint Hsleep. unfold loop_step.
  destruct (s_pc σ) as [e|p]; cbn [s_trace].
  { exists []. by rewrite app_nil_r. }
  specialize (Hfollow (acts (s_world σ) slot) p).
  destruct (follow_step (acts (s_world σ) slot) p) as [evs o]. cbn [fst] in Hfollow.
  assert (Hh : ∀ e ign, Forall P (handle_exn e ign).1.1).
  { intros e ign. unfold handle_exn. destruct (recoverable e); cbn; by repeat constructor. }
  destruct o as [p'|l p'|e]; cbn [s_trace].
  - by exists evs.
  - specialize (Hline l). destruct (process_line self l) as [evs' [e|]]; cbn [fst] in Hline.
    + specialize (Hh e (s_ignoreExisting σ)).
      destruct (handle_exn e (s_ignoreExisting σ)) as [[evs'' ign] pc]; cbn [fst] in Hh.
      cbn [s_trace]. eexists; split; [reflexivity|]. by rewrite !Forall_app.
    + cbn [s_trace]. eexists; split; [reflexivity|]. by rewrite !Forall_app.
  - specialize (Hh e (s_ignoreExisting σ)).
    destruct (handle_exn e (s_ignoreExisting σ)) as [[evs'' ign] pc]; cbn [fst] in Hh.
    cbn [s_trace]. eexists; split; [reflexivity|]. by rewrite !Forall_app.
Qed.

Lemma no_histogram_run (self : ApacheLogExporter) (sched : list (list action)) (σ : sys) :
  self_enableHistogram self = false →
  Forall (λ ev, is_histogram ev = false) (s_trace σ) →
  Forall (λ ev, is_histogram ev = false) (s_trace (foldl (loop_step self) σ sched)).
Proof.
  intros Hoff. revert σ. induction sched as [|slot sched IH]; intros σ Hσ; [done|].
  rewrite loop_cons. apply IH.
  destruct (loop_step_events (λ ev, is_histogram ev = false) self σ slot)
    as (evs & -> & Hevs); try done.
  - intros w p. apply follow_step_events.
  - intros l. eapply Forall_impl; [apply process_line_events|].
    intros ev [_ H]. by apply H.
  - by apply Forall_app.
Qed.

(** ** Reopening *)

Lemma recovery_trace_extend (c : bool) (tr evs : list event) :
  recovery_trace c tr → Forall (λ ev, is_follow ev = false) evs →
  recovery_trace c (tr ++ evs).
Proof.
  revert tr. induction evs as [|ev evs IH]; intros tr Htr Hevs.
  - by rewrite app_nil_r.
  - apply Forall_cons in Hevs as [Hev Hevs].
    rewrite (cons_middle ev), app_assoc. apply IH; [|done].
    apply rt_other; [done|]. intros b ->. done.
Qed.

Lemma recovery_trace_report (c : bool) (tr : list event) (e : exn) :
  recovery_trace c tr → recovery_trace c (tr ++ [EPrint e; EBackoff 1]).
Proof. intros Htr. by apply recovery_trace_extend; [|repeat constructor]. Qed.

Lemma loop_step_from (c : bool) (self : ApacheLogExporter) (σ : sys) (slot : list action)
    (p : fpc) :
  s_pc σ = inr p →
  recovery_trace c (s_trace σ ++ (follow_step (acts (s_world σ) slot) p).1) →
  stepped c (loop_step self σ slot).
Proof.
  intros Hpc Htr. unfold loop_step. rewrite Hpc.
  pose proof (follow_step_next (acts (s_world σ) slot) p) as Hnext.
  destruct (follow_step (acts (s_world σ) slot) p) as [evs o]. cbn [fst snd] in *.
  assert (Hh : ∀ tr e, recovery_trace c tr →
            let '(evs'', ign, pc) := handle_exn e (s_ignoreExisting σ) in
            stepped c (Sys (acts (s_world σ) slot) ign pc (tr ++ evs''))).
  { intros tr e Ht.
    destruct (handle_exn_cases e (s_ignoreExisting σ)) as [[Hr ->]|[Hr ->]]; split;
      cbn [s_trace s_pc s_ignoreExisting].
    - by apply recovery_trace_report.
    - intros b [= <-]. split; [done|]. split; [done|]. by exists tr, e.
    - by rewrite app_nil_r.
    - done. }
  destruct o as [p'|l p'|e].
  - split; cbn [s_trace s_pc]; [done|]. intros b [= ->]. by destruct (Hnext b) as [H _].
  - pose proof (process_line_events self l) as Hl.
    destruct (process_line self l) as [evs' [e|]]; cbn [fst] in Hl.
    + specialize (Hh (s_trace σ ++ evs ++ evs') e).
      destruct (handle_exn e (s_ignoreExisting σ)) as [[evs'' ign] pc].
      rewrite <- !app_assoc in Hh. apply Hh. rewrite app_assoc.
      apply recovery_trace_extend; [done|].
      eapply Forall_impl; [exact Hl|]. by intros ev [? _].
    + split; cbn [s_trace s_pc].
      * rewrite app_assoc. apply recovery_trace_extend; [done|].
        eapply Forall_impl; [exact Hl|]. by intros ev [? _].
      * intros b [= ->]. destruct (Hnext b) as [_ H]. by destruct (H l).
  - specialize (Hh (s_trace σ ++ evs) e Htr).
    destruct (handle_exn e (s_ignoreExisting σ)) as [[evs'' ign] pc].
    by rewrite <- !app_assoc in Hh.
Qed.

Lemma stepped_step (c : bool) (self : ApacheLogExporter) (σ : sys) (slot : list action) :
  stepped c σ → stepped c (loop_step self σ slot).
Proof.
  intros [Htr Hstat]. destruct (s_pc σ) as [e|p] eqn:Hpc.
  - unfold loop_step. rewrite Hpc. split; cbn [s_trace s_pc]; done.
  - apply (loop_step_from c self σ slot p Hpc).
    destruct p as [b| | |].
    + destruct (Hstat b eq_refl) as (-> & _ & tr & e & Ht & He & ->).
      cbn [follow_step fst]. rewrite <- app_assoc. by apply rt_reopen.
    + apply recovery_trace_extend; [done|]. by apply follow_step_events.
    + apply recovery_trace_extend; [done|]. by apply follow_step_events.
    + apply recovery_trace_extend; [done|]. by apply follow_step_events.
Qed.

Lemma stepped_run (self : ApacheLogExporter) (sched : list (list action)) (w : world) :
  sched ≠ [] →
  stepped (self_ignoreExisting self) (read_log_files self sched w).
Proof.
  destruct sched as [|slot sched]; [done|]. intros _.
  unfold read_log_files. rewrite loop_cons.
  assert (H1 : stepped (self_ignoreExisting self)
                 (loop_step self (read_log_files_init self w) slot)).
  { eapply loop_step_from; [reflexivity|]. cbn. apply rt_first. }
  revert H1. generalize (loop_step self (read_log_files_init self w) slot).
  induction sched as [|s sched IH]; intros σ Hσ; [done|].
  rewrite loop_cons. apply IH. by apply stepped_step.
Qed.

Lemma snoc_split {A : Type} (tr pre post : list A) (x y : A) :
  tr ++ [y] = pre ++ x :: post →
  (post = [] ∧ tr = pre ∧ y = x) ∨
  (∃ post', post = post' ++ [y] ∧ tr = pre ++ x :: post').
Proof.
  destruct post as [|z post _] using rev_ind; intros Heq.
  - left. apply app_inj_tail in Heq as [-> ->]. done.
  - right. exists post. rewrite app_comm_cons, app_assoc in Heq.
    apply app_inj_tail in Heq as [-> ->]. done.
Qed.

Lemma follows_app (tr evs : list event) : follows (tr ++ evs) = follows tr ++ follows evs.
Proof. apply omap_app. Qed.

Lemma recovery_trace_follows (c : bool) (tr : list event) :
  recovery_trace c tr → ∃ k, follows tr = c :: replicate k false.
Proof.
  induction 1 as [|tr ev _ [k IH] Hev|tr e _ [k IH] _].
  - by exists 0%nat.
  - exists k. rewrite follows_app, IH.
    destruct ev as [b| | | | | | | |]; try (by rewrite app_nil_r). by destruct (Hev b).
  - exists (S k). rewrite follows_app, IH. cbn [follows omap list_omap].
    by rewrite replicate_S_end.
Qed.

Lemma recovery_trace_split (c : bool) (tr : list event) :
  recovery_trace c tr →
  ∀ pre b post, tr = pre ++ EFollow b :: post →
    (pre = [] ∧ b = c) ∨
    (b = false ∧ ∃ pre' e, recoverable e = true ∧ pre = pre' ++ [EPrint e; EBackoff 1]).
Proof.
  induction 1 as [|tr ev _ IH Hev|tr e _ IH He]; intros pre b post Heq.
  - left. destruct pre as [|x pre]; [by simplify_eq/=|].
    simplify_eq/=. by destruct pre.
  - apply snoc_split in Heq as [(_ & _ & ->)|(post' & _ & ->)].
    + by destruct (Hev b).
    + by eapply IH.
  - change [EPrint e; EBackoff 1; EFollow false]
      with ([EPrint e; EBackoff 1] ++ [EFollow false]) in Heq.
    rewrite app_assoc in Heq.
    apply snoc_split in Heq as [(_ & <- & [= <-])|(post1 & _ & Heq)].
    { right. split; [done|]. by exists tr, e. }
    change [EPrint e; EBackoff 1] with ([EPrint e] ++ [EBackoff 1]) in Heq.
    rewrite app_assoc in Heq.
    apply snoc_split in Heq as [(_ & _ & [=])|(post2 & _ & Heq)].
    apply snoc_split in Heq as [(_ & _ & [=])|(post3 & _ & ->)].
    by eapply IH.
Qed.

(** ** The identity checks *)

Lemma checked_snoc (sched : list (list action)) (slot : list action) (σ : fsys) :
  checked (sched ++ [slot]) σ
  = checked sched σ
    ++ (if at_check (f_pc (frun sched σ))
        then option_list (identity (acts (f_world (frun sched σ)) slot))
        else []).
Proof.
  revert σ. induction sched as [|s sched IH]; intros σ.
  - cbn [app checked]. by rewrite !app_nil_r.
  - cbn [app checked]. rewrite IH, frun_cons. by rewrite app_assoc.
Qed.

Lemma frun_snoc (sched : list (list action)) (slot : list action) (σ : fsys) :
  frun (sched ++ [slot]) σ = fstep (frun sched σ) slot.
Proof. unfold frun. by rewrite foldl_app. Qed.

Lemma recorded_step (chk : list (Z * Z)) (σ : fsys) (p p' : fpc) (slot : list action) :
  f_pc σ = inr p → recorded chk p → f_pc (fstep σ slot) = inr p' →
  recorded (chk ++ (if at_check (f_pc σ)
                    then option_list (identity (acts (f_world σ) slot))
                    else [])) p'.
Proof.
  intros Hpc Hrec. unfold fstep. rewrite Hpc. cbn [at_check].
  destruct p as [ign|ign ino sz|g|g]; cbn [follow_step recorded] in *.
  - unfold GetInodeAndSize, lstat, identity.
    destruct (path (acts (f_world σ) slot)) as [i|]; cbn; [|done].
    intros [= <-]. by rewrite Hrec.
  - unfold open. destruct (path (acts (f_world σ) slot)) as [i|]; cbn; [|done].
    intros [= <-]. by rewrite app_nil_r, Hrec.
  - destruct (readline (acts (f_world σ) slot) (file g)) as [tmp f'].
    rewrite app_nil_r. unfold feed.
    destruct (negb (bool_decide (tmp = []))); [|by intros [= <-]].
    destruct (endswith_nl (line g ++ tmp)); [|by intros [= <-]].
    destruct (negb (ignoreExisting g)); by intros [= <-].
  - unfold GetInodeAndSize, lstat, identity, recheck.
    destruct (path (acts (f_world σ) slot)) as [i|]; cbn; [|done].
    destruct (Z.eqb_spec i (origInode g)) as [->|]; cbn; [|done].
    destruct (Z.ltb_spec (Z.of_nat (length (contents (acts (f_world σ) slot) (origInode g))))
                (lastSize g)); cbn; [done|].
    intros [= <-]. cbn [recorded origInode lastSize]. by rewrite last_snoc.
Qed.

Lemma recorded_run (sched : list (list action)) (w : world) (ign : bool) (p : fpc) :
  f_pc (frun sched (FSys w (inr (follow ign)) [])) = inr p →
  recorded (checked sched (FSys w (inr (follow ign)) [])) p.
Proof.
  revert p. induction sched as [|slot sched IH] using rev_ind; intros p.
  - cbn. by intros [= <-].
  - rewrite frun_snoc, checked_snoc. intros Hp.
    destruct (f_pc (frun sched (FSys w (inr (follow ign)) []))) as [e|p0] eqn:Hpc0.
    + unfold fstep in Hp. by rewrite Hpc0 in Hp.
    + rewrite <- Hpc0. eapply recorded_step; [exact Hpc0|by apply IH|exact Hp].
Qed.

(** * The claims *)

(** ** C1 *)




(** ** C2 *)

(** C2. While the followed file, of plain text, is only appended to (no
    rotation, no truncation), [follow] raises nothing, and after any
    number of steps the text returned by all the calls of [readline],
    put end to end, is the file from offset 0 up to the current read
    offset: every
    character before the offset was read once, in order, none was read
    twice or skipped. An identity check leaves the handle where it was,
    and so does an empty read, so the next read resumes at the offset the
    last one stopped at. With [ignoreExisting] false, what was read has
    also been handed on once: the lines yielded, followed by the buffer,
    are the file up to the read offset. *)
Theorem follow_reads_each_byte_once (w : world) (i : Z) (ign : bool)
    (sched : list (list action)) :
  path w = Some i → plain_text (contents w i) → plain_schedule sched →
  Forall append_only sched →
  ∃ p,
    f_pc (frun sched (FSys w (inr (follow ign)) [])) = inr p ∧
    (offset p ≤ length (contents (f_world (frun sched (FSys w (inr (follow ign)) []))) i))%nat ∧
    concat (reads (f_trace (frun sched (FSys w (inr (follow ign)) []))))
      = take (offset p) (contents (f_world (frun sched (FSys w (inr (follow ign)) []))) i) ∧
    (ign = false →
     concat (yields (f_trace (frun sched (FSys w (inr (follow ign)) [])))) ++ buffer p
       = take (offset p) (contents (f_world (frun sched (FSys w (inr (follow ign)) []))) i)) ∧
    (∀ slot, append_only slot →
       ∀ g, p = AtRecheck g →
         ∃ g', f_pc (fstep (frun sched (FSys w (inr (follow ign)) [])) slot)
                 = inr (AtReadline g') ∧ file g' = file g) ∧
    (∀ slot, append_only slot →
       ∀ g, p = AtReadline g →
         unread (acts (f_world (frun sched (FSys w (inr (follow ign)) []))) slot) (file g) = [] →
         ∃ g', f_pc (fstep (frun sched (FSys w (inr (follow ign)) [])) slot)
                 = inr (AtRecheck g') ∧ h_pos (file g') = h_pos (file g)).
Proof.
  intros Hp _ _ Hs.
  assert (Hmain : ∃ p,
    f_pc (frun sched (FSys w (inr (follow ign)) [])) = inr p ∧
    concat (reads (f_trace (frun sched (FSys w (inr (follow ign)) []))))
      = take (offset p) (contents (f_world (frun sched (FSys w (inr (follow ign)) []))) i) ∧
    (ign = false →
     concat (yields (f_trace (frun sched (FSys w (inr (follow ign)) [])))) ++ buffer p
       = take (offset p) (contents (f_world (frun sched (FSys w (inr (follow ign)) []))) i)) ∧
    ((∃ g, following i (f_world (frun sched (FSys w (inr (follow ign)) []))) p g) ∨
     ((∀ g, p ≠ AtReadline g ∧ p ≠ AtRecheck g) ∧ offset p = 0%nat))).
  { destruct sched as [|s1 [|s2 sched]].
    - exists (AtStat ign). split; [done|]. split; [done|]. split; [done|]. right. by split.
    - apply Forall_cons in Hs as [H1 _].
      destruct (acts_append_only _ _ _ Hp H1) as [Hp1 _].
      unfold frun, fstep, follow. cbn. unfold GetInodeAndSize, lstat. rewrite Hp1.
      eexists. split; [reflexivity|]. split; [done|]. split; [done|]. right. by split.
    - apply Forall_cons in Hs as [H1 Hs]. apply Forall_cons in Hs as [H2 Hs].
      destruct (follow_opens w i ign [] s1 s2 Hp H1 H2) as [Hrun Hf].
      change (s1 :: s2 :: sched) with ([s1; s2] ++ sched). rewrite frun_app, Hrun.
      match type of Hf with following _ _ ?q _ => set (p0 := q) in * end.
      set (σ0 := FSys (acts (acts w s1) s2) (inr p0) ([] ++ [EFollow ign])).
      destruct (consumed_run i sched σ0 p0 _ eq_refl Hf Hs eq_refl)
        as (p' & g' & Hpc' & Hf' & Hr').
      exists p'. split; [done|]. split; [done|]. split; [|left; by exists g'].
      intros ->.
      destruct (delivered_run i sched σ0 p0 _ eq_refl Hf Hs eq_refl eq_refl)
        as (p'' & Hpc'' & Hd).
      rewrite Hpc' in Hpc''. by injection Hpc'' as <-. }
  destruct Hmain as (p & Hpc & Hr & Hd & Hcase). exists p.
  split; [done|]. split; [|split; [done|split; [done|]]].
  { destruct Hcase as [[g Hf]|[_ ->]]; [|lia].
    pose proof (fl_pos _ _ _ _ Hf). by destruct (fl_pc _ _ _ _ Hf) as [->|[-> _]]. }
  split; intros slot Hslot g ->.
  - destruct Hcase as [[g0 Hf]|[Hno _]]; [|by destruct (Hno g)].
    assert (g0 = g) as -> by (by destruct (fl_pc _ _ _ _ Hf) as [?|[? _]]; simplify_eq).
    destruct (fstep_following _ _ _ _ _ Hpc Hf Hslot) as (evs & p' & g' & -> & _ & Hm & _).
    inversion Hm; subst. by eexists.
  - intros Hu. destruct Hcase as [[g0 Hf]|[Hno _]]; [|by destruct (Hno g)].
    assert (g0 = g) as -> by (by destruct (fl_pc _ _ _ _ Hf) as [?|[? _]]; simplify_eq).
    destruct (fstep_following _ _ _ _ _ Hpc Hf Hslot) as (evs & p' & g' & -> & _ & Hm & _).
    unfold unread in Hu. rewrite (fl_handle _ _ _ _ Hf) in Hu.
    inversion Hm; subst; try (by eexists; split; [reflexivity|cbn; lia]);
      match goal with H : upto_newline _ ≠ [] |- _ => by rewrite Hu in H end.
Qed.

Lemma follow_reads_each_byte_once_witness :
  let σ := frun [[]; []; []; [Append (t "e" ++ [LF])]; []; []]
             (FSys (sample_world (t "ab" ++ [LF] ++ t "cd")) (inr (follow false)) []) in
  reads (f_trace σ) = [t "ab" ++ [LF]; t "cde" ++ [LF]; []] ∧
  concat (reads (f_trace σ)) = contents (f_world σ) 7.
Proof.
  intros σ.
  destruct (follow_reads_each_byte_once (sample_world (t "ab" ++ [LF] ++ t "cd")) 7 false
              [[]; []; []; [Append (t "e" ++ [LF])]; []; []])
    as (p & Hpc & _ & Hr & _ & _).
  - reflexivity.
  - reflexivity.
  - reflexivity.
  - repeat constructor. by eexists.
  - split; [by vm_compute|]. fold σ in Hpc, Hr. rewrite Hr.
    vm_compute in Hpc. injection Hpc as <-. by vm_compute.
Defined.

(** ** C3 *)

(** C3, as the code has it. [follow] does not seek: with
    [ignoreExisting] true it reads the file from offset 0 and yields
    nothing as long as it has not had an empty read; the lines it
    completes until then are dropped. When the file, of plain text, at
    the time it is opened, is empty or ends with a newline, and is only
    appended to afterwards, nothing of that content is ever yielded or
    kept in the buffer: what has been yielded, followed by the buffer, is the file
    from some offset at or past the end of the existing content up to
    the read offset. *)
Theorem existing_lines_read_and_dropped (w : world) (i : Z) (s1 s2 : list action)
    (sched : list (list action)) :
  path w = Some i → plain_text (contents w i) → plain_schedule (s1 :: s2 :: sched) →
  append_only s1 → append_only s2 → Forall append_only sched →
  whole_lines (contents (acts (acts w s1) s2) i) →
  yielded_past (length (contents (acts (acts w s1) s2) i)) i
    (frun (s1 :: s2 :: sched) (FSys w (inr (follow true)) [])) ∧
  ∃ p,
    f_pc (frun (s1 :: s2 :: sched) (FSys w (inr (follow true)) [])) = inr p ∧
    (skipping p = true →
       yields (f_trace (frun (s1 :: s2 :: sched) (FSys w (inr (follow true)) []))) = []) ∧
    concat (reads (f_trace (frun (s1 :: s2 :: sched) (FSys w (inr (follow true)) []))))
      = take (offset p)
          (contents (f_world (frun (s1 :: s2 :: sched) (FSys w (inr (follow true)) []))) i).
Proof.
  intros Hp _ _ H1 H2 Hs Hpre.
  destruct (follow_opens w i true [] s1 s2 Hp H1 H2) as [Hrun Hf].
  change (s1 :: s2 :: sched) with ([s1; s2] ++ sched). rewrite frun_app, Hrun.
  set (pre := contents (acts (acts w s1) s2) i) in *.
  match type of Hf with following _ _ ?q _ => set (p0 := q) in * end.
  set (σ0 := FSys (acts (acts w s1) s2) (inr p0) ([] ++ [EFollow true])).
  assert (Hinv : past_existing pre i σ0 p0).
  { constructor; cbn.
    - done.
    - exists (length pre). split; [lia|]. unfold segment. by rewrite Nat.sub_0_l.
    - done.
    - done. }
  destruct (past_existing_run pre i sched σ0 p0 _ Hpre eq_refl Hf Hs Hinv)
    as (p1 & g1 & Hpc1 & _ & [_ (k & Hk & Hseg) Hskip _]).
  destruct (consumed_run i sched σ0 p0 _ eq_refl Hf Hs eq_refl) as (p2 & _ & Hpc2 & _ & Hr).
  rewrite Hpc1 in Hpc2. injection Hpc2 as <-.
  split.
  - exists p1, k. split; [done|]. split; [lia|done].
  - by exists p1.
Qed.

Lemma existing_lines_read_and_dropped_witness :
  let σ := frun [[]; []; []; []; [Append (t "abc")]; []; [Append (t "def" ++ [LF])]; []; []]
             (FSys (sample_world (t "old" ++ [LF])) (inr (follow true)) []) in
  yielded_past 4 7 σ ∧ yields (f_trace σ) = [t "abcdef" ++ [LF]].
Proof.
  intros σ.
  destruct (existing_lines_read_and_dropped (sample_world (t "old" ++ [LF])) 7 [] []
              [[]; []; [Append (t "abc")]; []; [Append (t "def" ++ [LF])]; []; []])
    as [Hpast _].
  - reflexivity.
  - reflexivity.
  - reflexivity.
  - constructor.
  - constructor.
  - repeat constructor; by eexists.
  - right. by vm_compute.
  - split; [exact Hpast|by vm_compute].
Defined.

(** C3 as stated fails when the file ends in the middle of a line when
    it is opened. The file holds "abc" without a newline; [follow] is
    started with [ignoreExisting] true, reads "abc", has an empty read,
    and then "def" with a newline arrives: the line yielded is "abcdef",
    which starts with the three characters that were there before. *)
Lemma existing_partial_line_is_yielded :
  let σ := frun [[]; []; []; []; [Append (t "def" ++ [LF])]; []]
             (FSys (sample_world (t "abc")) (inr (follow true)) []) in
  yields (f_trace σ) = [t "abcdef" ++ [LF]] ∧
  ¬ yielded_past (length (t "abc")) 7 σ.
Proof.
  intros σ. split; [by vm_compute|].
  intros (p & k & Hpc & Hk & Heq).
  vm_compute in Hpc. injection Hpc as <-.
  apply (f_equal length) in Heq. unfold segment in Heq.
  rewrite length_take, length_drop in Heq.
  assert (Hy : length (concat (yields (f_trace σ))) = 7%nat) by by vm_compute.
  rewrite length_app, Hy in Heq. cbn in Hk. cbn [offset file h_pos] in Heq. lia.
Qed.

(** ** C4 *)

(** C4, as the code has it. [follow] runs on a file of plain text that
    has only been appended to; it has had an empty read and slept. When
    the path still names the same inode and the file is now shorter than
    it was at the previous identity check of this call of [follow] (the
    check of line 52 when there was no other), the generator raises
    FileShrunkError, and not InodeChangedError, and does nothing else.
    The size compared with is the one the file had at that check, as
    [checked] reads it off the run. *)
Theorem shrunk_file_raises_FileShrunkError (w : world) (i : Z) (ign : bool)
    (sched : list (list action)) (slot : list action) (g : gen) (m : Z) :
  path w = Some i → plain_text (contents w i) → plain_schedule sched →
  Forall append_only sched →
  f_pc (frun sched (FSys w (inr (follow ign)) [])) = inr (AtRecheck g) →
  last (checked sched (FSys w (inr (follow ign)) [])) = Some (i, m) →
  path (acts (f_world (frun sched (FSys w (inr (follow ign)) []))) slot) = Some i →
  Z.of_nat (length (contents
              (acts (f_world (frun sched (FSys w (inr (follow ign)) []))) slot) i)) < m →
  f_pc (fstep (frun sched (FSys w (inr (follow ign)) [])) slot) = inl FileShrunkError ∧
  f_pc (fstep (frun sched (FSys w (inr (follow ign)) [])) slot) ≠ inl InodeChangedError ∧
  f_trace (fstep (frun sched (FSys w (inr (follow ign)) [])) slot)
    = f_trace (frun sched (FSys w (inr (follow ign)) [])).
Proof.
  intros _ _ _ _ Hpc Hlast Hpath Hsize.
  pose proof (recorded_run sched w ign _ Hpc) as Hrec. cbn [recorded] in Hrec.
  rewrite Hlast in Hrec. injection Hrec as -> ->.
  assert (Hstep : f_pc (fstep (frun sched (FSys w (inr (follow ign)) [])) slot)
                  = inl FileShrunkError
                ∧ f_trace (fstep (frun sched (FSys w (inr (follow ign)) [])) slot)
                  = f_trace (frun sched (FSys w (inr (follow ign)) []))).
  { unfold fstep. rewrite Hpc. cbn [follow_step].
    unfold GetInodeAndSize, lstat, recheck. rewrite Hpath, Z.eqb_refl. cbn [negb].
    destruct (Z.ltb_spec
                (Z.of_nat (length (contents
                   (acts (f_world (frun sched (FSys w (inr (follow ign)) []))) slot)
                   (origInode g))))
                (lastSize g)) as [_|Hge]; [|lia].
    cbn [f_pc f_trace]. by rewrite app_nil_r. }
  destruct Hstep as [Hraise Htr]. rewrite Hraise. done.
Qed.

Lemma shrunk_file_raises_FileShrunkError_witness :
  f_pc (frun [[]; []; []; []; [Append (t "a" ++ [LF] ++ t "b" ++ [LF])]; []; []; []; [Truncate 3]]
          (FSys (sample_world (t "x" ++ [LF])) (inr (follow false)) []))
    = inl FileShrunkError.
Proof.
  destruct (shrunk_file_raises_FileShrunkError (sample_world (t "x" ++ [LF])) 7 false
              [[]; []; []; []; [Append (t "a" ++ [LF] ++ t "b" ++ [LF])]; []; []; []]
              [Truncate 3] (Gen 7 6 (Handle 7 6) [] false) 6)
    as [Hraise _].
  - reflexivity.
  - reflexivity.
  - reflexivity.
  - repeat constructor; by eexists.
  - by vm_compute.
  - by vm_compute.
  - by vm_compute.
  - by vm_compute.
  - exact Hraise.
Defined.

(** C4 as stated fails when the size has gone down without going below
    the size at the previous check. The file holds one line of 2
    characters; [follow] reads it and checks (size 2); two lines are
    appended (size 6) and read; after the next empty read the file is
    cut to 3 characters. The inode is the same and the size has gone
    from 6 to 3, but 3 is not below 2: nothing is raised. *)
Lemma shrink_above_previous_check_raises_nothing :
  let σ := frun [[]; []; []; []; []; [Append (t "a" ++ [LF] ++ t "b" ++ [LF])]; []; []]
             (FSys (sample_world (t "x" ++ [LF])) (inr (follow false)) []) in
  (∃ g, f_pc σ = inr (AtRecheck g)) ∧
  checked [[]; []; []; []; []; [Append (t "a" ++ [LF] ++ t "b" ++ [LF])]; []; []]
    (FSys (sample_world (t "x" ++ [LF])) (inr (follow false)) []) = [(7, 2); (7, 2)] ∧
  identity (f_world σ) = Some (7, 6) ∧
  identity (acts (f_world σ) [Truncate 3]) = Some (7, 3) ∧
  (∃ g, f_pc (fstep σ [Truncate 3]) = inr (AtReadline g)) ∧
  f_pc (fstep σ [Truncate 3]) ≠ inl FileShrunkError.
Proof.
  intros σ. split; [by eexists; vm_compute|].
  split; [by vm_compute|]. split; [by vm_compute|]. split; [by vm_compute|].
  split; [by eexists; vm_compute|]. by vm_compute.
Qed.

(** ** C5 *)

(** C5, as the code has it. The generator is about to read and finds no
    new bytes; after its sleep the path names no file: the generator
    raises FileNotFoundError, the exception of [os.lstat], which is not
    InodeChangedError. The handler of [read_log_files] treats the two
    alike: it prints the exception, sleeps one second and starts
    [follow] again with [ignoreExisting] false. *)
Theorem missing_file_raises_FileNotFoundError (σ : fsys) (g : gen) (s1 s2 : list action)
    (ign : bool) :
  f_pc σ = inr (AtReadline g) →
  unread (acts (f_world σ) s1) (file g) = [] →
  path (acts (acts (f_world σ) s1) s2) = None →
  f_pc (frun [s1; s2] σ) = inl FileNotFoundError ∧
  handle_exn FileNotFoundError ign
    = ([EPrint FileNotFoundError; EBackoff 1], false, inr (follow false)) ∧
  handle_exn InodeChangedError ign
    = ([EPrint InodeChangedError; EBackoff 1], false, inr (follow false)).
Proof.
  intros Hpc Hu Hpath. split; [|done].
  unfold frun. cbn [foldl]. unfold fstep at 2. rewrite Hpc.
  cbn [follow_step readline f_world]. rewrite Hu. cbn [upto_newline feed].
  unfold feed. rewrite bool_decide_eq_true_2 by done. cbn [negb].
  unfold fstep. cbn [f_pc f_world f_trace follow_step].
  unfold GetInodeAndSize, lstat. by rewrite Hpath.
Qed.

Lemma missing_file_raises_FileNotFoundError_witness :
  f_pc (frun [[]; [Remove]]
          (FSys (sample_world (t "abc")) (inr (AtReadline (sample_gen false))) []))
    = inl FileNotFoundError.
Proof.
  apply (missing_file_raises_FileNotFoundError
           (FSys (sample_world (t "abc")) (inr (AtReadline (sample_gen false))) [])
           (sample_gen false) [] [Remove] false); reflexivity.
Defined.

(** C5 as stated fails: when the file is gone at the identity check, the
    exception is not the one raised for a changed inode. *)
Lemma missing_file_is_not_InodeChangedError :
  f_pc (frun [[]; [Remove]]
          (FSys (sample_world (t "abc")) (inr (AtReadline (sample_gen false))) []))
    ≠ inl InodeChangedError ∧
  f_pc (frun [[]; [Rotate 8 []]]
          (FSys (sample_world (t "abc")) (inr (AtReadline (sample_gen false))) []))
    = inl InodeChangedError.
Proof. by vm_compute. Qed.

(** ** C6 *)

(** C6. The parser of line 81 is built from a format with %h, so every
    record it returns has [remote_host]. On such a record the
    defaults and the alias lookup never fail: [virtual_host],
    [server_port] and [bytes_out] are kept when present and are
    "unspecified", 80 and 0 when missing, the other attributes are
    untouched, and the resolved remote host is the alias of
    [remote_host], "def" when the alias table does not map it. *)
Theorem normalize_defaults (self : ApacheLogExporter) (raw : RawRecord) (h : pyval) :
  remote_host raw = Some h →
  ∃ entry rh,
    normalize self raw = inr (entry, rh) ∧
    virtual_host entry = Some (default (PStr "unspecified") (virtual_host raw)) ∧
    server_port entry = Some (default (PInt 80) (server_port raw)) ∧
    bytes_out entry = Some (default (PInt 0) (bytes_out raw)) ∧
    remote_host entry = Some h ∧
    request_uri entry = request_uri raw ∧
    final_status entry = final_status raw ∧
    rh = resolver_get (self_resolver self) h UNSPECIFIED ∧
    (¬ aliased (self_resolver self) h → rh = "def").
Proof.
  intros Hh. unfold normalize, resolve. cbn [set_defaults remote_host]. rewrite Hh.
  cbn [getattr]. eexists _, _. split; [reflexivity|].
  cbn [virtual_host server_port bytes_out remote_host request_uri final_status].
  repeat split; try (by destruct raw as [[] [] ? ? ? []]).
  intros Hno. destruct h as [|n|s]; try done. cbn.
  destruct (self_resolver self !! s) as [v|] eqn:Hs; [|done].
  destruct Hno. by exists s, v.
Qed.

Lemma normalize_defaults_witness :
  ∃ entry,
    normalize (sample_exporter true true)
      (Entry None None (Some (PStr "10.0.0.1")) (Some (PStr "/")) (Some (PInt 200)) None)
    = inr (entry, "def") ∧
    virtual_host entry = Some (PStr "unspecified") ∧
    server_port entry = Some (PInt 80) ∧
    bytes_out entry = Some (PInt 0).
Proof.
  destruct (normalize_defaults (sample_exporter true true)
              (Entry None None (Some (PStr "10.0.0.1")) (Some (PStr "/")) (Some (PInt 200)) None)
              (PStr "10.0.0.1") eq_refl)
    as (entry & rh & Hn & Hv & Hs & Hb & _ & _ & _ & _ & Hdef).
  exists entry. rewrite Hn, Hdef; [done|].
  intros (s & v & [= <-] & Hl). vm_compute in Hl. discriminate.
Defined.

(** ** C7 *)

(** C7. When the parser raises an exception on a yielded line, the body
    of the loop reports the line and the exception and does nothing
    else: no observation is made, no exception leaves the body, and the
    loop goes on with the same generator, at the point it would have
    reached had the line been good, with its flag unchanged. *)
Theorem parse_failure_is_logged_and_skipped (self : ApacheLogExporter) (σ : sys)
    (slot : list action) (p p' : fpc) (l : text) (evs : list event) (e : exn) :
  s_pc σ = inr p →
  follow_step (acts (s_world σ) slot) p = (evs, Yield l p') →
  self_parser self l = inl e → is_Exception e = true →
  process_line self l = ([EWarn l e], None) ∧
  loop_step self σ slot
    = Sys (acts (s_world σ) slot) (s_ignoreExisting σ) (inr p')
        (s_trace σ ++ evs ++ [EWarn l e]).
Proof.
  intros Hpc Hstep Hparse Hexc.
  assert (Hline : process_line self l = ([EWarn l e], None)).
  { unfold process_line, parse_line. by rewrite Hparse, Hexc. }
  split; [done|]. unfold loop_step. by rewrite Hpc, Hstep, Hline.
Qed.

Lemma parse_failure_is_logged_and_skipped_witness :
  s_trace (read_log_files (sample_exporter false true) [[]; []; []; []]
             (sample_world (t "bad" ++ [LF] ++ t "good" ++ [LF])))
  = [EFollow false;
     ERead (t "bad" ++ [LF]); EYield (t "bad" ++ [LF]);
     EWarn (t "bad" ++ [LF]) (OtherException "InvalidEntryError");
     ERead (t "good" ++ [LF]); EYield (t "good" ++ [LF]);
     ESummary ("example.com:80", "80", "/index.html", "200", "localhost") (PInt 512);
     EHistogram ("example.com:80", "localhost") (PInt 512)].
Proof.
  change [[]; []; []; []] with ([[]; []] ++ [[]] ++ [[] : list action]).
  unfold read_log_files. rewrite !foldl_app.
  set (σ := foldl (loop_step (sample_exporter false true)) (read_log_files_init _ _) [[]; []]).
  cbn [foldl].
  destruct (parse_failure_is_logged_and_skipped (sample_exporter false true) σ []
              (AtReadline (Gen 7 9 (Handle 7 0) [] false))
              (AtReadline (Gen 7 9 (Handle 7 4) [] false))
              (t "bad" ++ [LF]) [ERead (t "bad" ++ [LF]); EYield (t "bad" ++ [LF])]
              (OtherException "InvalidEntryError")) as [_ ->].
  - by vm_compute.
  - by vm_compute.
  - by vm_compute.
  - reflexivity.
  - by vm_compute.
Defined.

(** ** C8 *)

(** C8. In every run of [read_log_files] the first event is the first
    call of [follow], with the configured [ignoreExisting]; every later
    call of [follow] has [ignoreExisting] false and comes right after
    the report of a recoverable exception and a sleep of one second.
    And whenever [follow] raises FileNotFoundError, InodeChangedError
    or FileShrunkError, the loop prints it, sleeps one second, sets its
    flag to false and calls [follow] again. *)
Theorem skip_only_on_first_open (self : ApacheLogExporter) (sched : list (list action))
    (w : world) :
  sched ≠ [] →
  recovery_trace (self_ignoreExisting self) (s_trace (read_log_files self sched w)) ∧
  (∃ k, follows (s_trace (read_log_files self sched w))
          = self_ignoreExisting self :: replicate k false) ∧
  (∀ pre b post,
     s_trace (read_log_files self sched w) = pre ++ EFollow b :: post →
     (pre = [] ∧ b = self_ignoreExisting self) ∨
     (b = false ∧ ∃ pre' e, recoverable e = true ∧ pre = pre' ++ [EPrint e; EBackoff 1])) ∧
  (∀ σ slot p evs e,
     s_pc σ = inr p →
     follow_step (acts (s_world σ) slot) p = (evs, Raise e) →
     recoverable e = true →
     loop_step self σ slot
       = Sys (acts (s_world σ) slot) false (inr (follow false))
           (s_trace σ ++ evs ++ [EPrint e; EBackoff 1])).
Proof.
  intros Hne. destruct (stepped_run self sched w Hne) as [Htr _].
  split; [done|]. split; [by apply recovery_trace_follows|].
  split; [by apply recovery_trace_split|].
  intros σ slot p evs e Hpc Hstep He.
  unfold loop_step, handle_exn. by rewrite Hpc, Hstep, He.
Qed.

Lemma skip_only_on_first_open_witness :
  follows (s_trace (read_log_files (sample_exporter true true)
                      [[]; []; []; []; [Truncate 0]; []; [Remove]; []; [Rotate 8 []]; []; []]
                      (sample_world (t "abc" ++ [LF]))))
  = [true; false; false; false].
Proof.
  destruct (skip_only_on_first_open (sample_exporter true true)
              [[]; []; []; []; [Truncate 0]; []; [Remove]; []; [Rotate 8 []]; []; []]
              (sample_world (t "abc" ++ [LF]))) as (_ & [k Hk] & _); [done|].
  rewrite Hk.
  assert (Hl : length (follows (s_trace (read_log_files (sample_exporter true true)
                 [[]; []; []; []; [Truncate 0]; []; [Remove]; []; [Rotate 8 []]; []; []]
                 (sample_world (t "abc" ++ [LF]))))) = 4%nat) by by vm_compute.
  rewrite Hk in Hl. cbn [length] in Hl. rewrite length_replicate in Hl.
  injection Hl as ->. reflexivity.
Defined.

(** ** C9 *)

(** C9. For a line that parses into a record with [remote_host],
    [request_uri] and [final_status], when the metric objects accept the
    observation, the body of the loop observes [bytes_out] on the summary
    under the labels (virtual_host, server_port, request_uri,
    final_status, resolved remote host), and then, when the histogram is
    enabled and only then, on the histogram under the labels
    (virtual_host, resolved remote host). With the histogram disabled no
    run of [read_log_files], whatever the file and the schedule, has a
    histogram observation in its trace. *)
Theorem observations_and_their_labels (self : ApacheLogExporter) :
  (∀ (l : text) (entry : RawRecord) (h uri st : pyval),
     parse_line self l = inr entry →
     remote_host entry = Some h → request_uri entry = Some uri →
     final_status entry = Some st →
     ∃ vh sp amount,
       virtual_host entry = Some vh ∧ server_port entry = Some sp ∧
       bytes_out entry = Some amount ∧
       ∀ rh, rh = resolver_get (self_resolver self) h UNSPECIFIED →
         self_webRequestSummary self
           (py_str vh, py_str sp, py_str uri, py_str st, rh) amount = None →
         (self_enableHistogram self = true →
            self_webRequestBytesOutHistogram self (py_str vh, rh) amount = None) →
         process_line self l
           = (ESummary (py_str vh, py_str sp, py_str uri, py_str st, rh) amount
                :: (if self_enableHistogram self
                    then [EHistogram (py_str vh, rh) amount] else []),
              None)) ∧
  (self_enableHistogram self = false →
   ∀ sched w, Forall (λ ev, is_histogram ev = false) (s_trace (read_log_files self sched w))).
Proof.
  split.
  - intros l entry h uri st Hparse Hh Huri Hst.
    assert (Hd : ∃ vh sp amount, virtual_host entry = Some vh ∧
              server_port entry = Some sp ∧ bytes_out entry = Some amount).
    { unfold parse_line in Hparse.
      destruct (self_parser self l) as [e|[raw|]]; simplify_eq.
      cbn. destruct raw as [[] [] ? ? ? []]; cbn; by eexists _, _, _. }
    destruct Hd as (vh & sp & amount & Hvh & Hsp & Hbo).
    exists vh, sp, amount. split; [done|]. split; [done|]. split; [done|].
    intros rh -> Hsum Hhist. unfold process_line. rewrite Hparse.
    unfold observe, resolve, observe_summary, observe_histogram.
    rewrite Hh, Huri, Hst, Hvh, Hsp, Hbo. cbn [getattr]. rewrite Hsum.
    destruct (self_enableHistogram self); [|done]. by rewrite Hhist.
  - intros Hoff sched w. by apply no_histogram_run.
Qed.

Lemma observations_and_their_labels_witness :
  process_line (sample_exporter false true) (t "good" ++ [LF])
  = ([ESummary ("example.com:80", "80", "/index.html", "200", "localhost") (PInt 512);
      EHistogram ("example.com:80", "localhost") (PInt 512)], None) ∧
  Forall (λ ev, is_histogram ev = false)
    (s_trace (read_log_files (sample_exporter false false) [[]; []; []; []]
                (sample_world (t "good" ++ [LF])))).
Proof.
  destruct (observations_and_their_labels (sample_exporter false true)) as [Hobs _].
  destruct (observations_and_their_labels (sample_exporter false false)) as [_ Hoff].
  split; [|by apply Hoff].
  destruct (Hobs (t "good" ++ [LF]) sample_entry (PStr "127.0.0.1") (PStr "/index.html")
              (PInt 200)) as (vh & sp & amount & Hvh & Hsp & Hbo & Hline);
    [reflexivity..|].
  injection Hvh as <-. injection Hsp as <-. injection Hbo as <-.
  rewrite (Hline "localhost"); reflexivity.
Defined.

(** ** C10 *)

(** C10. The handler of line 145 catches FileNotFoundError,
    InodeChangedError and FileShrunkError and nothing else. The handler
    of line 125 covers [parse_line] only: once a line is parsed, an
    exception raised by what follows (reading [remote_host] on a record
    that lacks it, a metric object refusing the observation) goes to the
    handler of line 145 whatever its type, and when it is not one of the
    three it leaves [read_log_files]: the loop is over, and no later
    step adds anything to the trace. *)
Theorem other_exceptions_leave_the_loop (self : ApacheLogExporter) :
  (∀ e, recoverable e = true ↔
        e = FileNotFoundError ∨ e = InodeChangedError ∨ e = FileShrunkError) ∧
  (∀ (σ : sys) (slot : list action) (p p' : fpc) (l : text) (evs evs' : list event)
     (entry : RawRecord) (e : exn) (sched : list (list action)),
     s_pc σ = inr p →
     follow_step (acts (s_world σ) slot) p = (evs, Yield l p') →
     parse_line self l = inr entry →
     observe self entry = (evs', Some e) →
     recoverable e = false →
     s_pc (foldl (loop_step self) (loop_step self σ slot) sched) = inl e ∧
     s_trace (foldl (loop_step self) (loop_step self σ slot) sched)
       = s_trace σ ++ evs ++ evs') ∧
  (∀ entry, remote_host entry = None → observe self entry = ([], Some AttributeError)) ∧
  (∀ entry h vh sp uri st amount e,
     remote_host entry = Some h → virtual_host entry = Some vh →
     server_port entry = Some sp → request_uri entry = Some uri →
     final_status entry = Some st → bytes_out entry = Some amount →
     self_webRequestSummary self
       (py_str vh, py_str sp, py_str uri, py_str st,
        resolver_get (self_resolver self) h UNSPECIFIED) amount = Some e →
     observe self entry = ([], Some e)).
Proof.
  split; [|split; [|split]].
  - intros e. split.
    + destruct e; cbn; intros; simplify_eq; auto.
    + intros [->|[->| ->]]; done.
  - intros σ slot p p' l evs evs' entry e sched Hpc Hstep Hparse Hobs Hrec.
    assert (Hs : loop_step self σ slot
              = Sys (acts (s_world σ) slot) (s_ignoreExisting σ) (inl e)
                  (s_trace σ ++ evs ++ evs')).
    { unfold loop_step, process_line, handle_exn.
      rewrite Hpc, Hstep, Hparse, Hobs, Hrec. by rewrite app_nil_r. }
    rewrite Hs.
    by destruct (loop_terminated self sched
                   (Sys (acts (s_world σ) slot) (s_ignoreExisting σ) (inl e)
                      (s_trace σ ++ evs ++ evs')) e eq_refl) as [-> ->].
  - intros entry Hh. unfold observe, resolve. by rewrite Hh.
  - intros entry h vh sp uri st amount e Hh Hvh Hsp Huri Hst Hbo Hsum.
    unfold observe, resolve, observe_summary.
    rewrite Hh, Huri, Hst, Hvh, Hsp, Hbo. cbn [getattr]. by rewrite Hsum.
Qed.

Lemma other_exceptions_leave_the_loop_witness :
  let self := Exporter (λ _, inr (Some (Entry None None None None None None)))
                sample_resolver false true (λ _ _, None) (λ _ _, None) in
  let σ := read_log_files self [[]; []; []; [Append (t "next" ++ [LF])]; []]
             (sample_world (t "line" ++ [LF])) in
  s_pc σ = inl AttributeError ∧
  s_trace σ = [EFollow false; ERead (t "line" ++ [LF]); EYield (t "line" ++ [LF])].
Proof.
  intros self σ. subst σ.
  change [[]; []; []; [Append (t "next" ++ [LF])]; []]
    with ([[]; []] ++ [[]] ++ [[Append (t "next" ++ [LF])]; [] : list action]).
  unfold read_log_files. rewrite !foldl_app.
  set (σ := foldl (loop_step self) (read_log_files_init _ _) [[]; []]).
  cbn [foldl].
  destruct (other_exceptions_leave_the_loop self) as (_ & Hleave & _).
  destruct (Hleave σ [] (AtReadline (Gen 7 5 (Handle 7 0) [] false))
              (AtReadline (Gen 7 5 (Handle 7 5) [] false))
              (t "line" ++ [LF]) [ERead (t "line" ++ [LF]); EYield (t "line" ++ [LF])] []
              (set_defaults (Entry None None None None None None)) AttributeError
              [[Append (t "next" ++ [LF])]; []]) as [Hpc Htr].
  - by vm_compute.
  - by vm_compute.
  - reflexivity.
  - reflexivity.
  - reflexivity.
  - cbn [foldl] in Hpc, Htr. split; [exact Hpc|]. rewrite Htr. by vm_compute.
Defined.

(** * Further properties of [follow] and [read_log_files] *)

(** ** Reading whole lines *)

Lemma fstep_world (σ : fsys) (slot : list action) :
  f_world (fstep σ slot) = acts (f_world σ) slot.
Proof. unfold fstep. destruct (f_pc σ) as [e|p]; [done|]. by destruct (follow_step _ p). Qed.

(** What the environment did just before a step can as well be put in
    the world first. *)
Lemma fstep_acts (σ : fsys) (slot : list action) :
  fstep σ slot = fstep (FSys (acts (f_world σ) slot) (f_pc σ) (f_trace σ)) [].
Proof. done. Qed.

(** A read that finds a whole line, whatever comes after it in the file. *)
Lemma read_line_step (i : Z) (σ : fsys) (g : gen) (r rest : text) :
  f_pc σ = inr (AtReadline g) → following i (f_world σ) (AtReadline g) g →
  unread (f_world σ) (file g) = (r ++ [LF]) ++ rest → no_nl r →
  ∃ g', f_pc (fstep σ []) = inr (AtReadline g') ∧
    following i (f_world (fstep σ [])) (AtReadline g') g' ∧
    f_world (fstep σ []) = f_world σ ∧
    line g' = [] ∧ ignoreExisting g' = ignoreExisting g ∧
    unread (f_world σ) (file g') = rest ∧
    yields (f_trace (fstep σ []))
      = yields (f_trace σ) ++ (if ignoreExisting g then [] else [line g ++ r ++ [LF]]).
Proof.
  intros Hpc Hf Hu Hn.
  destruct (fstep_following _ _ _ _ [] Hpc Hf (Forall_nil_2 _))
    as (evs & p' & g' & Hstep & _ & Hm & Hf').
  rewrite Hstep. rewrite acts_nil in *. cbn [f_pc f_world f_trace]. rewrite yields_app.
  unfold unread in Hu. rewrite (fl_handle _ _ _ _ Hf) in Hu.
  assert (Ht : upto_newline (drop (h_pos (file g)) (contents (f_world σ) i)) = r ++ [LF]).
  { rewrite Hu, <- app_assoc. by apply upto_newline_line. }
  assert (Hrest : drop (h_pos (file g) + length (r ++ [LF])) (contents (f_world σ) i) = rest).
  { rewrite <- drop_drop, Hu. by rewrite drop_app_length. }
  inversion Hm; subst p' evs; try subst tmp.
  - match goal with H : drop _ _ = [] |- _ => rewrite H in Hu end. by destruct r.
  - rewrite Ht in *. match goal with H : endswith_nl _ = false |- _ =>
      rewrite app_assoc, endswith_nl_snoc in H end. done.
  - rewrite Ht in *. apply following_vars in Hf' as Hg'. subst g'.
    eexists. split; [reflexivity|]. split; [done|]. split; [done|].
    cbn [line ignoreExisting file]. unfold unread. cbn [h_inode h_pos].
    rewrite (fl_handle _ _ _ _ Hf), Hrest.
    match goal with H : ignoreExisting g = false |- _ => rewrite H end. done.
  - rewrite Ht in *. apply following_vars in Hf' as Hg'. subst g'.
    eexists. split; [reflexivity|]. split; [done|]. split; [done|].
    cbn [line ignoreExisting file]. unfold unread. cbn [h_inode h_pos].
    rewrite (fl_handle _ _ _ _ Hf), Hrest.
    match goal with H : ignoreExisting g = true |- _ => rewrite H end.
    unfold yields at 2. cbn. by rewrite app_nil_r.
Qed.

(** With the environment quiet, whole lines waiting in the file are read
    one per step, and yielded unless existing content is ignored. *)
Lemma drain (i : Z) (ls : list text) (σ : fsys) (g : gen) :
  f_pc σ = inr (AtReadline g) → following i (f_world σ) (AtReadline g) g →
  line g = [] → Forall is_line ls →
  unread (f_world σ) (file g) = concat ls →
  ∃ g', f_pc (frun (replicate (length ls) []) σ) = inr (AtReadline g') ∧
    following i (f_world (frun (replicate (length ls) []) σ)) (AtReadline g') g' ∧
    line g' = [] ∧ ignoreExisting g' = ignoreExisting g ∧
    unread (f_world (frun (replicate (length ls) []) σ)) (file g') = [] ∧
    yields (f_trace (frun (replicate (length ls) []) σ))
      = yields (f_trace σ) ++ (if ignoreExisting g then [] else ls).
Proof.
  intros Hpc Hf Hl Hls. revert σ g Hpc Hf Hl.
  induction Hls as [|l ls (r & Hr & ->) _ IH]; intros σ g Hpc Hf Hl Hu.
  - exists g. cbn. by destruct (ignoreExisting g); rewrite ?app_nil_r.
  - cbn [length replicate concat] in *. rewrite frun_cons.
    destruct (read_line_step i σ g r (concat ls) Hpc Hf Hu Hr)
      as (g1 & Hpc1 & Hf1 & Hw1 & Hl1 & Hi1 & Hu1 & Hy1).
    rewrite <- Hw1 in Hu1.
    destruct (IH _ _ Hpc1 Hf1 Hl1 Hu1) as (g2 & Hpc2 & Hf2 & Hl2 & Hi2 & Hu2 & Hy2).
    exists g2. split; [done|]. split; [done|]. split; [done|].
    split; [congruence|]. split; [done|].
    rewrite Hy2, Hy1, Hi1, Hl. cbn [app]. rewrite <- app_assoc.
    by destruct (ignoreExisting g).
Qed.

Lemma frun_quiet_world (n : nat) (σ : fsys) :
  f_world (frun (replicate n []) σ) = f_world σ.
Proof.
  revert σ. induction n as [|n IH]; intros σ; [done|].
  cbn [replicate]. by rewrite frun_cons, IH, fstep_world.
Qed.

Lemma arrived_quiet (n : nat) : arrived (replicate n []) = [].
Proof. unfold arrived. induction n as [|n IH]; [done|]. by cbn. Qed.

Lemma partial_only_quiet (n : nat) : Forall partial_only (replicate n []).
Proof. apply Forall_replicate. apply partial_only_nil. Qed.

Lemma following_append (i : Z) (w : world) (p : fpc) (g : gen) (s : text) :
  following i w p g →
  following i (acts w [Append s]) p g ∧
  contents (acts w [Append s]) i = contents w i ++ s.
Proof.
  intros [Hpc Hpath Hh Ho Hsz Hpos].
  destruct (acts_append_only w [Append s] i Hpath (append_only_one s)) as [Hp' Hc'].
  rewrite appended_one in Hc'. split; [|done].
  constructor; try done; rewrite Hc', length_app; lia.
Qed.

(** The state of rest: nothing buffered, nothing unread, and existing
    content no longer ignored. *)
Lemma at_rest_quiet (i : Z) (n : nat) (σ : fsys) (p : fpc) (g : gen) :
  f_pc σ = inr p → following i (f_world σ) p g → pending (f_world σ) p = [] →
  ∃ p' g', f_pc (frun (replicate n []) σ) = inr p' ∧
    following i (f_world (frun (replicate n []) σ)) p' g' ∧
    pending (f_world (frun (replicate n []) σ)) p' = [] ∧
    yields (f_trace (frun (replicate n []) σ)) = yields (f_trace σ) ∧
    (ignoreExisting g = false → ignoreExisting g' = false).
Proof.
  intros Hpc Hf Hp.
  destruct (buffering_run i (replicate n []) σ p g Hpc Hf (partial_only_quiet n))
    as (p' & g' & Hpc' & Hf' & Hp' & Hy' & Hi').
  { rewrite Hp. apply no_nl_nil. }
  exists p', g'. by rewrite Hp', Hp, arrived_quiet.
Qed.

(** Whole lines waiting in the file are all yielded, in order, within as
    many quiet steps as there are lines, plus one. *)
Lemma deliver (i : Z) (ls : list text) (n : nat) (σ : fsys) (p : fpc) (g : gen) :
  f_pc σ = inr p → following i (f_world σ) p g →
  line g = [] → ignoreExisting g = false → Forall is_line ls →
  unread (f_world σ) (file g) = concat ls →
  (length ls + 1 ≤ n)%nat →
  ∃ p' g', f_pc (frun (replicate n []) σ) = inr p' ∧
    following i (f_world (frun (replicate n []) σ)) p' g' ∧
    pending (f_world (frun (replicate n []) σ)) p' = [] ∧
    ignoreExisting g' = false ∧
    yields (f_trace (frun (replicate n []) σ)) = yields (f_trace σ) ++ ls.
Proof.
  intros Hpc Hf Hl Hflag Hls Hu Hn.
  assert (Hread : ∀ σ1 g1 m,
    f_pc σ1 = inr (AtReadline g1) → following i (f_world σ1) (AtReadline g1) g1 →
    line g1 = [] → ignoreExisting g1 = false →
    unread (f_world σ1) (file g1) = concat ls →
    ∃ p' g', f_pc (frun (replicate (length ls + m) []) σ1) = inr p' ∧
      following i (f_world (frun (replicate (length ls + m) []) σ1)) p' g' ∧
      pending (f_world (frun (replicate (length ls + m) []) σ1)) p' = [] ∧
      ignoreExisting g' = false ∧
      yields (f_trace (frun (replicate (length ls + m) []) σ1)) = yields (f_trace σ1) ++ ls).
  { intros σ1 g1 m Hpc1 Hf1 Hl1 Hi1 Hu1.
    destruct (drain i ls σ1 g1 Hpc1 Hf1 Hl1 Hls Hu1)
      as (g2 & Hpc2 & Hf2 & Hl2 & Hi2 & Hu2 & Hy2).
    rewrite replicate_add, frun_app.
    destruct (at_rest_quiet i m _ _ _ Hpc2 Hf2) as (p3 & g3 & Hpc3 & Hf3 & Hp3 & Hy3 & Hi3).
    { cbn [pending]. by rewrite Hl2, Hu2. }
    exists p3, g3. split; [done|]. split; [done|]. split; [done|].
    split; [apply Hi3; congruence|]. rewrite Hy3, Hy2, Hi1. done. }
  destruct (fl_pc _ _ _ _ Hf) as [->|[-> _]].
  - replace n with (length ls + (n - length ls))%nat by lia. by apply (Hread σ g).
  - replace n with (S (length ls + (n - length ls - 1)))%nat by lia.
    cbn [replicate]. rewrite frun_cons.
    destruct (fstep_following _ _ _ _ [] Hpc Hf (Forall_nil_2 _))
      as (evs & p1 & g1 & Hstep & _ & Hm & Hf1).
    inversion Hm; subst p1 evs. apply following_vars in Hf1 as Hg1. subst g1.
    rewrite acts_nil in *. rewrite Hstep.
    match goal with |- context [frun _ ?s] => set (σ1 := s) end.
    destruct (Hread σ1 _ (n - length ls - 1)%nat eq_refl Hf1 Hl Hflag Hu)
      as (p' & g' & Hpc' & Hf' & Hp' & Hi' & Hy').
    exists p', g'. split; [done|]. split; [done|]. split; [done|]. split; [done|].
    rewrite Hy'. cbn [σ1 f_trace]. by rewrite app_nil_r.
Qed.

Lemma pending_nil (i : Z) (w : world) (p : fpc) (g : gen) :
  following i w p g → pending w p = [] →
  line g = [] ∧ drop (h_pos (file g)) (contents w i) = [].
Proof.
  intros Hf Hp. destruct (pending_following _ _ _ _ Hf) as [Hp' _].
  rewrite Hp' in Hp. by apply app_eq_nil in Hp.
Qed.

(** [follow] on a quiet file of whole lines: it opens the file, reads the
    lines one per step, has an empty read, and is then at rest. *)
Lemma catch_up (w : world) (i : Z) (ign : bool) (pre : list text) (m : nat) :
  path w = Some i → contents w i = concat pre → Forall is_line pre →
  ∃ p g,
    f_pc (frun (replicate (3 + length pre + m) []) (FSys w (inr (follow ign)) [])) = inr p ∧
    f_world (frun (replicate (3 + length pre + m) []) (FSys w (inr (follow ign)) [])) = w ∧
    following i w p g ∧ pending w p = [] ∧ ignoreExisting g = false ∧
    yields (f_trace (frun (replicate (3 + length pre + m) []) (FSys w (inr (follow ign)) [])))
      = (if ign then [] else pre).
Proof.
  intros Hp Hc Hpre.
  replace (3 + length pre + m)%nat with (2 + (length pre + (1 + m)))%nat by lia.
  rewrite !replicate_add, !frun_app.
  destruct (follow_opens w i ign [] [] [] Hp (Forall_nil_2 _) (Forall_nil_2 _)) as [Hrun Hf].
  rewrite !acts_nil in *. cbn [replicate] in *. rewrite Hrun.
  match type of Hf with following _ _ _ ?q => set (g0 := q) in * end.
  set (σ0 := FSys w (inr (AtReadline g0)) ([] ++ [EFollow ign])).
  destruct (drain i pre σ0 g0 eq_refl Hf eq_refl Hpre)
    as (g1 & Hpc1 & Hf1 & Hl1 & Hi1 & Hu1 & Hy1).
  { unfold unread. cbn. by rewrite Hc. }
  set (σ1 := frun (replicate (length pre) []) σ0) in *.
  assert (Hw1 : f_world σ1 = w) by apply frun_quiet_world.
  rewrite Hw1 in *.
  (* the empty read *)
  rewrite frun_cons.
  destruct (fstep_following _ _ _ _ [] Hpc1 ltac:(by rewrite Hw1) (Forall_nil_2 _))
    as (evs & p2 & g2 & Hstep & _ & Hm & Hf2).
  rewrite acts_nil, Hw1 in *.
  unfold unread in Hu1. rewrite (fl_handle _ _ _ _ Hf1) in Hu1.
  inversion Hm; subst p2 evs; try subst tmp;
    try (match goal with H : upto_newline _ ≠ [] |- _ => by rewrite Hu1 in H end).
  assert (g2 = Gen (origInode g1) (lastSize g1)
                 (Handle (h_inode (file g1)) (h_pos (file g1) + 0)) (line g1) false) as ->.
  { by destruct (fl_pc _ _ _ _ Hf2) as [?|[? _]]; simplify_eq. }
  rewrite Hstep.
  match goal with |- context [frun _ ?s] => set (σ2 := s) end.
  destruct (at_rest_quiet i m σ2 _ _ eq_refl Hf2) as (p3 & g3 & Hpc3 & Hf3 & Hp3 & Hy3 & Hi3).
  { unfold σ2, unread. cbn [f_world pending line file h_inode h_pos].
    rewrite Hl1, Nat.add_0_r, (fl_handle _ _ _ _ Hf1). done. }
  assert (Hw3 : f_world (frun (replicate m []) σ2) = w) by by rewrite frun_quiet_world.
  rewrite Hw3 in *.
  exists p3, g3. split; [done|]. split; [done|]. split; [done|]. split; [done|].
  split; [by apply Hi3|].
  rewrite Hy3. unfold σ2, frun at 1. cbn [foldl f_trace]. rewrite yields_app, Hy1.
  unfold g0, σ0. cbn [ignoreExisting f_trace].
  change (yields ([] ++ [EFollow ign])) with (@nil text).
  change (yields [ERead []; EPollSleep 1]) with (@nil text).
  rewrite app_nil_r. by destruct ign.
Qed.

(** ** X1 *)

(** X1. [follow] with [ignoreExisting] false on a file of plain text made
    of whole lines, with nothing else happening to the file, yields
    exactly the lines of the file, in order, and raises nothing, however
    long it runs after the last line. *)
Theorem follow_yields_the_lines (w : world) (i : Z) (ls : list text) (k : nat) :
  path w = Some i → contents w i = concat ls → plain_text (concat ls) →
  Forall is_line ls →
  yields (f_trace (frun (replicate (3 + length ls + k) []) (FSys w (inr (follow false)) [])))
    = ls ∧
  ∃ p, f_pc (frun (replicate (3 + length ls + k) []) (FSys w (inr (follow false)) [])) = inr p.
Proof.
  intros Hp Hc _ Hls.
  destruct (catch_up w i false ls k Hp Hc Hls) as (p & g & Hpc & _ & _ & _ & _ & Hy).
  split; [done|]. by exists p.
Qed.

Lemma follow_yields_the_lines_witness :
  yields (f_trace (frun (replicate 7 [])
            (FSys (sample_world (t "one" ++ [LF] ++ t "two" ++ [LF])) (inr (follow false)) [])))
  = [t "one" ++ [LF]; t "two" ++ [LF]].
Proof.
  destruct (follow_yields_the_lines (sample_world (t "one" ++ [LF] ++ t "two" ++ [LF])) 7
              [t "one" ++ [LF]; t "two" ++ [LF]] 2) as [Hy _].
  - reflexivity.
  - reflexivity.
  - reflexivity.
  - repeat constructor; eexists; (split; [|reflexivity]);
      apply (bool_decide_unpack _); by vm_compute.
  - exact Hy.
Defined.

(** ** X2 *)

(** X2. [follow] with [ignoreExisting] true behaves like a tail of the file:
    on a file of plain text made of whole lines that stays quiet until
    the generator has had an empty read, the lines of plain text
    appended afterwards are yielded, in order, and none of the lines
    that were there before. *)
Theorem ignoring_existing_yields_only_new_lines (w : world) (i : Z) (pre ls : list text)
    (m k : nat) :
  path w = Some i → contents w i = concat pre →
  plain_text (concat pre) → plain_text (concat ls) →
  Forall is_line pre → Forall is_line ls →
  yields (f_trace (frun (replicate (3 + length pre + m) []
                           ++ [Append (concat ls)] :: replicate (length ls + 1 + k) [])
                     (FSys w (inr (follow true)) [])))
    = ls.
Proof.
  intros Hp Hc _ _ Hpre Hls. rewrite frun_app.
  destruct (catch_up w i true pre m Hp Hc Hpre) as (p & g & Hpc & Hw & Hf & Hpend & Hi & Hy).
  set (σR := frun (replicate (3 + length pre + m) []) (FSys w (inr (follow true)) [])) in *.
  rewrite frun_cons, fstep_acts, <- frun_cons.
  change ([] :: replicate (length ls + 1 + k) [])
    with (replicate (S (length ls + 1 + k)) ([] : list action)).
  rewrite Hw, Hpc.
  destruct (following_append i w p g (concat ls) Hf) as [Hf' Hc'].
  destruct (pending_nil _ _ _ _ Hf Hpend) as [Hl Hd].
  set (σA := FSys (acts w [Append (concat ls)]) (inr p) (f_trace σR)).
  destruct (deliver i ls (S (length ls + 1 + k)) σA p g eq_refl Hf' Hl Hi Hls)
    as (p' & g' & _ & _ & _ & _ & Hy'); [|lia|].
  - unfold unread. cbn [σA f_world]. rewrite (fl_handle _ _ _ _ Hf), Hc'.
    rewrite drop_app_le by apply (fl_pos _ _ _ _ Hf). by rewrite Hd.
  - rewrite Hy'. cbn [σA f_trace]. by rewrite Hy.
Qed.

Lemma ignoring_existing_yields_only_new_lines_witness :
  yields (f_trace (frun ([[]; []; []; []; []; []]
                           ++ [[Append (t "new" ++ [LF])]; []; []; []])
            (FSys (sample_world (t "one" ++ [LF] ++ t "two" ++ [LF])) (inr (follow true)) [])))
  = [t "new" ++ [LF]].
Proof.
  apply (ignoring_existing_yields_only_new_lines
           (sample_world (t "one" ++ [LF] ++ t "two" ++ [LF])) 7
           [t "one" ++ [LF]; t "two" ++ [LF]] [t "new" ++ [LF]] 1 1).
  - reflexivity.
  - reflexivity.
  - reflexivity.
  - reflexivity.
  - repeat constructor; eexists; (split; [|reflexivity]);
      apply (bool_decide_unpack _); by vm_compute.
  - repeat constructor; eexists; (split; [|reflexivity]);
      apply (bool_decide_unpack _); by vm_compute.
Defined.

(** ** X3 *)

(** X3. The inode is compared before the size: when, at the check that
    follows an empty read, the path names a file with another inode, the
    generator raises InodeChangedError, whatever the size of that file,
    smaller than the recorded size or not. *)
Theorem changed_inode_raises_InodeChangedError (σ : fsys) (g : gen) (s1 s2 : list action)
    (j : Z) :
  f_pc σ = inr (AtReadline g) →
  unread (acts (f_world σ) s1) (file g) = [] →
  path (acts (acts (f_world σ) s1) s2) = Some j → j ≠ origInode g →
  f_pc (frun [s1; s2] σ) = inl InodeChangedError ∧
  yields (f_trace (frun [s1; s2] σ)) = yields (f_trace σ).
Proof.
  intros Hpc Hu Hpath Hj.
  assert (Hrun : frun [s1; s2] σ
            = FSys (acts (acts (f_world σ) s1) s2) (inl InodeChangedError)
                ((f_trace σ ++ [ERead []; EPollSleep 1]) ++ [])).
  { unfold frun. cbn [foldl]. unfold fstep at 2. rewrite Hpc.
    cbn [follow_step readline f_world]. rewrite Hu. cbn [upto_newline].
    unfold feed. rewrite bool_decide_eq_true_2 by done. cbn [negb].
    unfold fstep. cbn [f_pc f_world f_trace follow_step].
    unfold GetInodeAndSize, lstat, recheck. rewrite Hpath. cbn [origInode].
    by destruct (Z.eqb_spec j (origInode g)) as [|_]. }
  rewrite Hrun. cbn [f_pc f_trace].
  split; [done|]. rewrite app_nil_r, yields_app. apply app_nil_r.
Qed.

Lemma changed_inode_raises_InodeChangedError_witness :
  f_pc (frun [[]; [Rotate 8 []]]
          (FSys (sample_world (t "abc")) (inr (AtReadline (sample_gen false))) []))
    = inl InodeChangedError ∧
  f_pc (frun [[]; [Rotate 8 (t "abcdefgh")]]
          (FSys (sample_world (t "abc")) (inr (AtReadline (sample_gen false))) []))
    = inl InodeChangedError.
Proof.
  split.
  - apply (changed_inode_raises_InodeChangedError
             (FSys (sample_world (t "abc")) (inr (AtReadline (sample_gen false))) [])
             (sample_gen false) [] [Rotate 8 []] 8); done.
  - apply (changed_inode_raises_InodeChangedError
             (FSys (sample_world (t "abc")) (inr (AtReadline (sample_gen false))) [])
             (sample_gen false) [] [Rotate 8 (t "abcdefgh")] 8); done.
Defined.

(** ** X4 *)

Lemma stale_step (i : Z) (σ : fsys) (p : fpc) (g : gen) :
  f_pc σ = inr p → stale i (f_world σ) p g →
  ∃ p' g', f_pc (fstep σ []) = inr p' ∧ stale i (f_world (fstep σ [])) p' g' ∧
    f_world (fstep σ []) = f_world σ ∧
    file g' = file g ∧ line g' = line g ∧
    yields (f_trace (fstep σ [])) = yields (f_trace σ) ∧
    concat (reads (f_trace (fstep σ []))) = concat (reads (f_trace σ)).
Proof.
  intros Hpc [Hp Hpath Hh Ho Hsz Hpos].
  unfold fstep. rewrite Hpc, acts_nil. destruct Hp as [-> | ->].
  - cbn [follow_step readline]. unfold unread. rewrite Hh.
    rewrite drop_ge by done. cbn [upto_newline length]. unfold feed.
    rewrite bool_decide_eq_true_2 by done. cbn [negb f_pc f_world f_trace].
    eexists _, _. split; [reflexivity|]. split.
    { constructor; [by right|cbn..]; try done. lia. }
    cbn [file line]. split; [done|].
    split; [rewrite Nat.add_0_r, <- Hh; by destruct (file g)|].
    split; [done|]. rewrite yields_app, reads_app, concat_app.
    split; [apply app_nil_r|]. cbn. by rewrite app_nil_r.
  - cbn [follow_step]. unfold GetInodeAndSize, lstat, recheck. rewrite Hpath.
    replace (i =? origInode g) with true by (symmetry; by apply Z.eqb_eq).
    cbn [negb].
    destruct (Z.ltb_spec (Z.of_nat (length (contents (f_world σ) i))) (lastSize g)); [lia|].
    cbn [f_pc f_world f_trace]. eexists _, _. split; [reflexivity|]. split.
    { constructor; [by left|cbn..]; try done. }
    rewrite app_nil_r. done.
Qed.

Lemma stale_run (i : Z) (k : nat) (σ : fsys) (p : fpc) (g : gen) :
  f_pc σ = inr p → stale i (f_world σ) p g →
  ∃ p' g', f_pc (frun (replicate k []) σ) = inr p' ∧
    stale i (f_world (frun (replicate k []) σ)) p' g' ∧
    file g' = file g ∧ line g' = line g ∧
    yields (f_trace (frun (replicate k []) σ)) = yields (f_trace σ) ∧
    concat (reads (f_trace (frun (replicate k []) σ))) = concat (reads (f_trace σ)).
Proof.
  revert σ p g. induction k as [|k IH]; intros σ p g Hpc Hs.
  - by exists p, g.
  - cbn [replicate]. rewrite frun_cons.
    destruct (stale_step i σ p g Hpc Hs) as (p1 & g1 & Hpc1 & Hs1 & _ & Hf1 & Hl1 & Hy1 & Hr1).
    destruct (IH _ _ _ Hpc1 Hs1) as (p2 & g2 & Hpc2 & Hs2 & Hf2 & Hl2 & Hy2 & Hr2).
    exists p2, g2. split; [done|]. split; [done|].
    split; [congruence|]. split; [congruence|]. split; congruence.
Qed.

(** X4. A shrink the size check misses. The check compares the size with the
    size at the previous check, not with the read offset. The generator
    has read all of a file of plain text (nothing is left unread, in the
    file or in the buffer of the file object). When the file is then cut
    and written again between two checks (the path and the inode staying
    the same) so that its new length is neither below the size recorded
    at the last check nor above the read offset, the generator raises
    nothing, and as long as nothing else happens it reads nothing and
    yields nothing: the text written after the cut is not read. *)
Theorem missed_shrink_is_never_read (i : Z) (σ : fsys) (p : fpc) (g : gen) (n k : nat)
    (s : text) :
  f_pc σ = inr p → following i (f_world σ) p g →
  plain_text (contents (f_world σ) i) → plain_text s →
  unread (f_world σ) (file g) = [] →
  lastSize g ≤ Z.of_nat (length (take n (contents (f_world σ) i) ++ s)) →
  (length (take n (contents (f_world σ) i) ++ s) ≤ h_pos (file g))%nat →
  ∃ p' g',
    f_pc (frun ([Truncate n; Append s] :: replicate k []) σ) = inr p' ∧
    (p' = AtReadline g' ∨ p' = AtRecheck g') ∧
    file g' = file g ∧
    contents (f_world (frun ([Truncate n; Append s] :: replicate k []) σ)) i
      = take n (contents (f_world σ) i) ++ s ∧
    yields (f_trace (frun ([Truncate n; Append s] :: replicate k []) σ)) = yields (f_trace σ) ∧
    concat (reads (f_trace (frun ([Truncate n; Append s] :: replicate k []) σ)))
      = concat (reads (f_trace σ)).
Proof.
  intros Hpc Hf _ _ _ Hsz Hpos.
  rewrite frun_cons, fstep_acts, <- frun_cons.
  change ([] :: replicate k []) with (replicate (S k) ([] : list action)).
  set (w' := acts (f_world σ) [Truncate n; Append s]).
  assert (Hw' : path w' = Some i ∧ contents w' i = take n (contents (f_world σ) i) ++ s).
  { unfold w', acts. cbn [foldl act]. rewrite (fl_path _ _ _ _ Hf). cbn [path].
    rewrite !contents_insert. done. }
  destruct Hw' as [Hpath' Hc'].
  assert (Hs : stale i w' p g).
  { constructor; rewrite ?Hc'; try done.
    - destruct (fl_pc _ _ _ _ Hf) as [?|[? _]]; auto.
    - apply (fl_handle _ _ _ _ Hf).
    - apply (fl_orig _ _ _ _ Hf). }
  destruct (stale_run i (S k) (FSys w' (f_pc σ) (f_trace σ)) p g Hpc Hs)
    as (p' & g' & Hpc' & Hs' & Hf' & _ & Hy' & Hr').
  exists p', g'. split; [done|]. split; [apply (st_pc _ _ _ _ Hs')|].
  split; [done|]. split; [|done].
  by rewrite frun_quiet_world.
Qed.

Lemma missed_shrink_is_never_read_witness :
  let σ := frun [[]; []; []; []; []; [Append (t "a" ++ [LF] ++ t "b" ++ [LF])]; []]
             (FSys (sample_world (t "x" ++ [LF])) (inr (follow false)) []) in
  contents (f_world (frun [[Truncate 0; Append (t "new" ++ [LF])]; []; []; []; []] σ)) 7
    = t "new" ++ [LF] ∧
  yields (f_trace (frun [[Truncate 0; Append (t "new" ++ [LF])]; []; []; []; []] σ))
    = [t "x" ++ [LF]; t "a" ++ [LF]; t "b" ++ [LF]] ∧
  ∃ p, f_pc (frun [[Truncate 0; Append (t "new" ++ [LF])]; []; []; []; []] σ) = inr p.
Proof.
  intros σ.
  destruct (missed_shrink_is_never_read 7 σ (AtReadline (Gen 7 2 (Handle 7 6) [] false))
              (Gen 7 2 (Handle 7 6) [] false) 0 4 (t "new" ++ [LF]))
    as (p' & g' & Hpc & _ & _ & Hc & Hy & _).
  - by vm_compute.
  - constructor; [by left|by vm_compute..|vm_compute; congruence|vm_compute; lia].
  - by vm_compute.
  - reflexivity.
  - by vm_compute.
  - vm_compute. congruence.
  - vm_compute. lia.
  - split; [exact Hc|]. split; [|by exists p'].
    transitivity (yields (f_trace σ)); [exact Hy|by vm_compute].
Defined.

(** ** X5 *)

(** The exceptions [follow] raises are those [read_log_files] handles. *)
Lemma follow_step_raises (w : world) (p : fpc) (e : exn) :
  (follow_step w p).2 = Raise e → recoverable e = true.
Proof.
  destruct p as [ign|ign ino sz|g|g]; cbn [follow_step snd].
  - unfold GetInodeAndSize, lstat. destruct (path w); intros; simplify_eq; done.
  - unfold open. destruct (path w); intros; simplify_eq; done.
  - destruct (readline w (file g)) as [tmp f']. unfold feed.
    repeat case_match; cbn; intros; simplify_eq.
  - unfold recheck, GetInodeAndSize, lstat.
    destruct (path w); repeat case_match; intros; simplify_eq; done.
Qed.

Lemma loop_step_alive (self : ApacheLogExporter) (σ : sys) (slot : list action) :
  (∀ l e, (process_line self l).2 = Some e → recoverable e = true) →
  (∃ p, s_pc σ = inr p) → ∃ p, s_pc (loop_step self σ slot) = inr p.
Proof.
  intros Hline [p Hpc]. unfold loop_step. rewrite Hpc.
  pose proof (follow_step_raises (acts (s_world σ) slot) p) as Hraise.
  destruct (follow_step (acts (s_world σ) slot) p) as [evs [p'|l p'|e]]; cbn [snd] in Hraise.
  - by eexists.
  - specialize (Hline l). destruct (process_line self l) as [evs' [e|]]; cbn [snd] in Hline.
    + unfold handle_exn. rewrite (Hline e eq_refl). by eexists.
    + by eexists.
  - unfold handle_exn. rewrite (Hraise e eq_refl). by eexists.
Qed.

(** X5. Nothing that happens to files of plain text ends [read_log_files]:
    whatever the schedule of appends, truncations, rotations and
    removals, when the body of the loop lets no exception out other than
    the three handled ones, for any line, the loop is still running
    after every step. The exceptions [follow] raises come from
    [GetInodeAndSize], [open] and the two tests of the check, not from
    what [readline] hands over. *)
Theorem file_events_never_end_the_loop (self : ApacheLogExporter)
    (sched : list (list action)) (w : world) :
  plain_world w → plain_schedule sched →
  (∀ l e, (process_line self l).2 = Some e → recoverable e = true) →
  ∃ p, s_pc (read_log_files self sched w) = inr p.
Proof.
  intros _ _ Hline. unfold read_log_files.
  assert (H0 : ∃ p, s_pc (read_log_files_init self w) = inr p) by by eexists.
  revert H0. generalize (read_log_files_init self w).
  induction sched as [|slot sched IH]; intros σ Hσ; [done|].
  rewrite loop_cons. apply IH. by apply loop_step_alive.
Qed.

Lemma sample_exporter_never_raises (ign hist : bool) (l : text) (e : exn) :
  (process_line (sample_exporter ign hist) l).2 = Some e → recoverable e = true.
Proof.
  unfold process_line, parse_line, sample_exporter, sample_parser. cbn [self_parser].
  destruct (bool_decide (l = t "bad" ++ [LF])); [done|].
  unfold observe, resolve, observe_summary, observe_histogram. cbn.
  by destruct hist.
Qed.

Lemma file_events_never_end_the_loop_witness :
  ∃ p, s_pc (read_log_files (sample_exporter true true)
               [[]; []; [Truncate 0]; [Remove]; []; [Rotate 9 (t "bad" ++ [LF])]; []; []; []]
               (sample_world (t "line" ++ [LF]))) = inr p.
Proof.
  apply (file_events_never_end_the_loop (sample_exporter true true)).
  - apply map_Forall_singleton. reflexivity.
  - reflexivity.
  - apply sample_exporter_never_raises.
Defined.

(** ** X6 *)

Lemma count_app (f : event → bool) (tr evs : list event) :
  count f (tr ++ evs) = (count f tr + count f evs)%nat.
Proof. unfold count. by rewrite List.filter_app, length_app. Qed.

Lemma follow_step_counts (w : world) (p : fpc) :
  count is_summary (follow_step w p).1 = 0%nat ∧
  count is_warn (follow_step w p).1 = 0%nat ∧
  count is_histogram (follow_step w p).1 = 0%nat ∧
  (∀ l p', (follow_step w p).2 = Yield l p' → count is_yield (follow_step w p).1 = 1%nat).
Proof.
  destruct p as [ign|ign ino sz|g|g]; cbn [follow_step];
    try (destruct (readline w (file g)) as [tmp f']; unfold feed);
    unfold recheck; repeat case_match; cbn; repeat split; intros; simplify_eq; done.
Qed.

Lemma observe_summary_counts (self : ApacheLogExporter) (entry : RawRecord) (rh : string) :
  ((observe_summary self entry rh).2 = None →
   count is_summary (observe_summary self entry rh).1 = 1%nat) ∧
  (count is_summary (observe_summary self entry rh).1 ≤ 1)%nat ∧
  count is_warn (observe_summary self entry rh).1 = 0%nat ∧
  count is_histogram (observe_summary self entry rh).1 = 0%nat.
Proof.
  unfold observe_summary.
  destruct (getattr (virtual_host entry)), (getattr (server_port entry)),
    (getattr (request_uri entry)), (getattr (final_status entry)),
    (getattr (bytes_out entry)); cbn; try (repeat split; (done || lia)).
  destruct (self_webRequestSummary self _ _); cbn; repeat split; (done || lia).
Qed.

Lemma observe_histogram_counts (self : ApacheLogExporter) (entry : RawRecord) (rh : string) :
  count is_summary (observe_histogram self entry rh).1 = 0%nat ∧
  count is_warn (observe_histogram self entry rh).1 = 0%nat ∧
  (count is_histogram (observe_histogram self entry rh).1 ≤ 1)%nat.
Proof.
  unfold observe_histogram.
  destruct (self_enableHistogram self); [|cbn; repeat split; (done || lia)].
  destruct (getattr (virtual_host entry)), (getattr (bytes_out entry));
    cbn; try (repeat split; (done || lia)).
  destruct (self_webRequestBytesOutHistogram self _ _); cbn; repeat split; (done || lia).
Qed.

Lemma process_line_counts (self : ApacheLogExporter) (l : text) :
  (count is_summary (process_line self l).1 + count is_warn (process_line self l).1 ≤ 1)%nat ∧
  (count is_histogram (process_line self l).1 ≤ count is_summary (process_line self l).1)%nat.
Proof.
  unfold process_line. destruct (parse_line self l) as [e|entry].
  - destruct (is_Exception e); unfold count; cbn; lia.
  - unfold observe. destruct (resolve self entry) as [e|rh]; [unfold count; cbn; lia|].
    destruct (observe_summary_counts self entry rh) as (Hs1 & Hs2 & Hs3 & Hs4).
    destruct (observe_histogram_counts self entry rh) as (Hh1 & Hh2 & Hh3).
    destruct (observe_summary self entry rh) as [evs [e|]]; cbn [fst snd] in *; [lia|].
    destruct (observe_histogram self entry rh) as [evs' r]; cbn [fst snd] in *.
    specialize (Hs1 eq_refl). rewrite !count_app. lia.
Qed.

Lemma handle_exn_counts (e : exn) (ign : bool) :
  count is_summary (handle_exn e ign).1.1 = 0%nat ∧
  count is_warn (handle_exn e ign).1.1 = 0%nat ∧
  count is_histogram (handle_exn e ign).1.1 = 0%nat.
Proof. unfold handle_exn. by destruct (recoverable e). Qed.

Lemma loop_step_counts (self : ApacheLogExporter) (σ : sys) (slot : list action) :
  ∃ evs, s_trace (loop_step self σ slot) = s_trace σ ++ evs ∧
    (count is_summary evs + count is_warn evs ≤ count is_yield evs)%nat ∧
    (count is_histogram evs ≤ count is_summary evs)%nat.
Proof.
  unfold loop_step. destruct (s_pc σ) as [e|p]; cbn [s_trace].
  { exists []. by rewrite app_nil_r. }
  destruct (follow_step_counts (acts (s_world σ) slot) p) as (Hs & Hw & Hh & Hy).
  destruct (follow_step (acts (s_world σ) slot) p) as [evs o]. cbn [fst snd] in *.
  destruct o as [p'|l p'|e].
  - exists evs. cbn [s_trace]. split; [done|]. lia.
  - specialize (Hy l p' eq_refl).
    destruct (process_line_counts self l) as [Hl1 Hl2].
    destruct (process_line self l) as [evs' [e|]]; cbn [fst] in *.
    + destruct (handle_exn_counts e (s_ignoreExisting σ)) as (He1 & He2 & He3).
      destruct (handle_exn e (s_ignoreExisting σ)) as [[evs'' ign] pc]. cbn [fst] in *.
      cbn [s_trace]. eexists. split; [reflexivity|]. rewrite !count_app. lia.
    + cbn [s_trace]. eexists. split; [reflexivity|]. rewrite !count_app. lia.
  - destruct (handle_exn_counts e (s_ignoreExisting σ)) as (He1 & He2 & He3).
    destruct (handle_exn e (s_ignoreExisting σ)) as [[evs'' ign] pc]. cbn [fst] in *.
    cbn [s_trace]. eexists. split; [reflexivity|]. rewrite !count_app. lia.
Qed.

(** X6. In every run of [read_log_files], whatever the parser, the metric
    objects and the schedule: every summary observation and every
    warning answers a yielded line of its own, and every histogram
    observation a summary observation. No line is counted twice, and the
    histogram is never fed without the summary. *)
Theorem at_most_one_observation_per_line (self : ApacheLogExporter)
    (sched : list (list action)) (w : world) :
  (count is_summary (s_trace (read_log_files self sched w))
   + count is_warn (s_trace (read_log_files self sched w))
   ≤ count is_yield (s_trace (read_log_files self sched w)))%nat ∧
  (count is_histogram (s_trace (read_log_files self sched w))
   ≤ count is_summary (s_trace (read_log_files self sched w)))%nat.
Proof.
  unfold read_log_files.
  assert (H0 : (count is_summary (s_trace (read_log_files_init self w))
                + count is_warn (s_trace (read_log_files_init self w))
                ≤ count is_yield (s_trace (read_log_files_init self w)))%nat ∧
               (count is_histogram (s_trace (read_log_files_init self w))
                ≤ count is_summary (s_trace (read_log_files_init self w)))%nat) by (cbn; lia).
  revert H0. generalize (read_log_files_init self w).
  induction sched as [|slot sched IH]; intros σ Hσ; [done|].
  rewrite loop_cons. apply IH.
  destruct (loop_step_counts self σ slot) as (evs & -> & H1 & H2).
  rewrite !count_app. lia.
Qed.

(** ** The loop and its generator *)

Lemma frun_raised (sched : list (list action)) (σ : fsys) (e : exn) :
  f_pc σ = inl e → f_pc (frun sched σ) = inl e.
Proof.
  revert σ. induction sched as [|slot sched IH]; intros σ Hpc; [done|].
  rewrite frun_cons. apply IH. unfold fstep. by rewrite Hpc.
Qed.

Lemma process_line_quiet (self : ApacheLogExporter) (l : text) :
  yields (process_line self l).1 = [] ∧ follows (process_line self l).1 = [].
Proof.
  unfold process_line. destruct (parse_line self l) as [e|entry].
  - by destruct (is_Exception e).
  - unfold observe. destruct (resolve self entry) as [e|rh]; [done|].
    assert (Hs : yields (observe_summary self entry rh).1 = [] ∧
                 follows (observe_summary self entry rh).1 = []).
    { unfold observe_summary.
      destruct (getattr (virtual_host entry)), (getattr (server_port entry)),
        (getattr (request_uri entry)), (getattr (final_status entry)),
        (getattr (bytes_out entry)); try done.
      by destruct (self_webRequestSummary self _ _). }
    assert (Hh : yields (observe_histogram self entry rh).1 = [] ∧
                 follows (observe_histogram self entry rh).1 = []).
    { unfold observe_histogram. destruct (self_enableHistogram self); [|done].
      destruct (getattr (virtual_host entry)), (getattr (bytes_out entry)); try done.
      by destruct (self_webRequestBytesOutHistogram self _ _). }
    destruct (observe_summary self entry rh) as [evs [e|]]; cbn [fst] in *; [done|].
    destruct (observe_histogram self entry rh) as [evs' r]; cbn [fst] in *.
    rewrite yields_app, follows_app. destruct Hs as [-> ->], Hh as [-> ->]. done.
Qed.

(** As long as the generator raises nothing and the body of the loop
    lets no exception out, the loop goes where the generator goes, and
    its trace has the same calls and the same yielded lines. *)
Lemma loop_mirrors_follow (self : ApacheLogExporter) (sched : list (list action)) (σ : sys)
    (p p' : fpc) (trf : list event) :
  (∀ l, (process_line self l).2 = None) →
  s_pc σ = inr p →
  f_pc (frun sched (FSys (s_world σ) (inr p) trf)) = inr p' →
  s_pc (foldl (loop_step self) σ sched) = inr p' ∧
  s_world (foldl (loop_step self) σ sched) = f_world (frun sched (FSys (s_world σ) (inr p) trf)) ∧
  s_ignoreExisting (foldl (loop_step self) σ sched) = s_ignoreExisting σ ∧
  ∃ evl evf,
    s_trace (foldl (loop_step self) σ sched) = s_trace σ ++ evl ∧
    f_trace (frun sched (FSys (s_world σ) (inr p) trf)) = trf ++ evf ∧
    yields evl = yields evf ∧ follows evl = follows evf.
Proof.
  intros Hline. revert σ p trf.
  induction sched as [|slot sched IH]; intros σ p trf Hpc Hrun.
  - cbn in *. simplify_eq. repeat split; try done.
    exists [], []. by rewrite !app_nil_r.
  - rewrite loop_cons. rewrite frun_cons in *.
    unfold fstep in Hrun |- *. cbn [f_pc f_world f_trace] in *.
    unfold loop_step at 2 4 6 8. rewrite Hpc.
    destruct (follow_step (acts (s_world σ) slot) p) as [evs o] eqn:Hstep.
    destruct o as [p1|l p1|e].
    + destruct (IH (Sys (acts (s_world σ) slot) (s_ignoreExisting σ) (inr p1) (s_trace σ ++ evs))
                  p1 (trf ++ evs) eq_refl Hrun) as (H1 & H2 & H3 & evl & evf & H4 & H5 & H6 & H7).
      cbn [s_world s_trace s_ignoreExisting] in *.
      split; [done|]. split; [done|]. split; [done|].
      exists (evs ++ evl), (evs ++ evf).
      rewrite H4, H5, !app_assoc, !yields_app, !follows_app, H6, H7. done.
    + specialize (Hline l). destruct (process_line_quiet self l) as [Hq1 Hq2].
      destruct (process_line self l) as [evs' r]. cbn [fst snd] in *. subst r.
      destruct (IH (Sys (acts (s_world σ) slot) (s_ignoreExisting σ) (inr p1)
                      (s_trace σ ++ evs ++ evs'))
                  p1 (trf ++ evs) eq_refl Hrun) as (H1 & H2 & H3 & evl & evf & H4 & H5 & H6 & H7).
      cbn [s_world s_trace s_ignoreExisting] in *.
      split; [done|]. split; [done|]. split; [done|].
      exists ((evs ++ evs') ++ evl), (evs ++ evf).
      rewrite H4, H5, !app_assoc, !yields_app, !follows_app, H6, H7, Hq1, Hq2.
      by rewrite !app_nil_r.
    + rewrite frun_raised with (e := e) in Hrun; done.
Qed.

(** [follow] is entered once per generator. *)
Lemma follows_frun (sched : list (list action)) (σ : fsys) :
  (∀ b, f_pc σ ≠ inr (AtStat b)) →
  follows (f_trace (frun sched σ)) = follows (f_trace σ).
Proof.
  revert σ. induction sched as [|slot sched IH]; intros σ Hpc; [done|].
  rewrite frun_cons, IH.
  - unfold fstep. destruct (f_pc σ) as [e|p] eqn:Hp; [done|].
    pose proof (follow_step_events (acts (f_world σ) slot) p) as [_ Hev].
    destruct (follow_step (acts (f_world σ) slot) p) as [evs o]. cbn [fst f_trace] in *.
    rewrite follows_app.
    assert (Hf : follows evs = []).
    { specialize (Hev ltac:(by intros b ->; apply (Hpc b))).
      clear -Hev. induction Hev as [|ev evs Hx _ IH]; [done|].
      destruct ev; try done. }
    by rewrite Hf, app_nil_r.
  - intros b. unfold fstep. destruct (f_pc σ) as [e|p] eqn:Hp; [done|].
    pose proof (follow_step_next (acts (f_world σ) slot) p b) as [Hn1 Hn2].
    destruct (follow_step (acts (f_world σ) slot) p) as [evs o]. cbn [snd f_pc] in *.
    destruct o as [p1|l p1|e]; try done.
    + intros [= ->]. done.
    + intros [= ->]. by destruct (Hn2 l).
Qed.

Lemma follows_from_start (sched : list (list action)) (w : world) (ign : bool) :
  sched ≠ [] → follows (f_trace (frun sched (FSys w (inr (follow ign)) []))) = [ign].
Proof.
  destruct sched as [|slot sched]; [done|]. intros _. rewrite frun_cons, follows_frun.
  - unfold fstep, follow. cbn. by destruct (GetInodeAndSize (acts w slot)) as [?|[]].
  - intros b. unfold fstep, follow. cbn.
    by destruct (GetInodeAndSize (acts w slot)) as [?|[]].
Qed.

Lemma following_unique (i : Z) (w : world) (p : fpc) (g g' : gen) :
  following i w p g → following i w p g' → g = g'.
Proof.
  intros Hf Hf'.
  destruct (fl_pc _ _ _ _ Hf) as [->|[-> _]], (fl_pc _ _ _ _ Hf') as [?|[? _]];
    by simplify_eq.
Qed.

(** On a quiet file the recorded size stays the size of the file. *)
Lemma size_quiet (i : Z) (n : nat) (σ : fsys) (p : fpc) (g : gen) :
  f_pc σ = inr p → following i (f_world σ) p g →
  lastSize g = Z.of_nat (length (contents (f_world σ) i)) →
  ∃ p' g', f_pc (frun (replicate n []) σ) = inr p' ∧
    following i (f_world σ) p' g' ∧
    lastSize g' = Z.of_nat (length (contents (f_world σ) i)).
Proof.
  revert σ p g. induction n as [|n IH]; intros σ p g Hpc Hf Hsz.
  - by exists p, g.
  - cbn [replicate]. rewrite frun_cons.
    destruct (fstep_following _ _ _ _ [] Hpc Hf (Forall_nil_2 _))
      as (evs & p1 & g1 & Hstep & _ & Hm & Hf1).
    rewrite acts_nil in *.
    assert (Hsz1 : lastSize g1 = Z.of_nat (length (contents (f_world σ) i))).
    { inversion Hm; subst p1 evs;
        (destruct (fl_pc _ _ _ _ Hf1) as [?|[? _]]; simplify_eq; done). }
    destruct (IH (fstep σ []) p1 g1) as (p2 & g2 & Hpc2 & Hf2 & Hsz2).
    + by rewrite Hstep.
    + by rewrite fstep_world, acts_nil.
    + by rewrite fstep_world, acts_nil.
    + rewrite fstep_world, acts_nil in *. by exists p2, g2.
Qed.

(** [read_log_files] on a quiet file of whole lines, seen from the loop:
    the lines are yielded (or skipped), the generator comes to rest, and
    it remembers the size of the file. *)
Lemma loop_catch_up (self : ApacheLogExporter) (σ : sys) (ign : bool) (i : Z)
    (pre : list text) (m : nat) :
  (∀ l, (process_line self l).2 = None) →
  s_pc σ = inr (follow ign) →
  path (s_world σ) = Some i → contents (s_world σ) i = concat pre → Forall is_line pre →
  ∃ p g,
    s_pc (foldl (loop_step self) σ (replicate (3 + length pre + m) [])) = inr p ∧
    s_world (foldl (loop_step self) σ (replicate (3 + length pre + m) [])) = s_world σ ∧
    s_ignoreExisting (foldl (loop_step self) σ (replicate (3 + length pre + m) []))
      = s_ignoreExisting σ ∧
    following i (s_world σ) p g ∧ pending (s_world σ) p = [] ∧
    ignoreExisting g = false ∧
    lastSize g = Z.of_nat (length (contents (s_world σ) i)) ∧
    yields (s_trace (foldl (loop_step self) σ (replicate (3 + length pre + m) [])))
      = yields (s_trace σ) ++ (if ign then [] else pre) ∧
    follows (s_trace (foldl (loop_step self) σ (replicate (3 + length pre + m) [])))
      = follows (s_trace σ) ++ [ign].
Proof.
  intros Hline Hpc Hp Hc Hpre. set (w := s_world σ) in *.
  destruct (catch_up w i ign pre m Hp Hc Hpre) as (p & g & Hfpc & Hfw & Hf & Hpend & Hi & Hy).
  destruct (loop_mirrors_follow self (replicate (3 + length pre + m) []) σ (follow ign) p []
              Hline Hpc Hfpc) as (H1 & H2 & H3 & evl & evf & H4 & H5 & H6 & H7).
  fold w in H2, H5. rewrite Hfw in H2. cbn [app] in H5.
  exists p, g. split; [done|]. split; [done|]. split; [done|].
  split; [done|]. split; [done|]. split; [done|]. split.
  - (* the recorded size *)
    destruct (follow_opens w i ign [] [] [] Hp (Forall_nil_2 _) (Forall_nil_2 _)) as [Hrun Hf0].
    rewrite !acts_nil in *.
    match type of Hf0 with following _ _ _ ?q => set (g0 := q) in * end.
    destruct (size_quiet i (1 + length pre + m)
                (FSys w (inr (AtReadline g0)) ([] ++ [EFollow ign])) (AtReadline g0) g0
                eq_refl Hf0 eq_refl) as (p' & g' & Hpc' & Hf' & Hsz').
    rewrite <- Hrun, <- frun_app in Hpc'.
    change ([[]; []] ++ replicate (1 + length pre + m) [])
      with (replicate (3 + length pre + m) ([] : list action)) in Hpc'.
    rewrite Hfpc in Hpc'. injection Hpc' as <-. cbn [f_world] in *.
    by rewrite (following_unique _ _ _ _ _ Hf Hf').
  - rewrite H4, yields_app, follows_app, H6, H7, <- H5, Hy.
    rewrite follows_from_start; [done|]. by destruct (length pre).
Qed.

(** The generator is at rest, the environment does something that the
    handle does not see but that makes the next identity check raise a
    handled exception: within two steps the loop has printed it, slept,
    and stands at a new call of [follow] with [ignoreExisting] false. *)
Lemma recover (self : ApacheLogExporter) (σ : sys) (i : Z) (p : fpc) (g : gen)
    (a : list action) (e : exn) :
  s_pc σ = inr p → following i (s_world σ) p g →
  unread (acts (s_world σ) a) (file g) = [] →
  (∀ g', origInode g' = origInode g → lastSize g' = lastSize g →
         recheck g' (GetInodeAndSize (acts (s_world σ) a)) = Raise e) →
  recoverable e = true →
  ∃ n, (n ≤ 1)%nat ∧
    s_pc (foldl (loop_step self) σ (a :: replicate n [])) = inr (follow false) ∧
    s_world (foldl (loop_step self) σ (a :: replicate n [])) = acts (s_world σ) a ∧
    s_ignoreExisting (foldl (loop_step self) σ (a :: replicate n [])) = false ∧
    yields (s_trace (foldl (loop_step self) σ (a :: replicate n []))) = yields (s_trace σ) ∧
    follows (s_trace (foldl (loop_step self) σ (a :: replicate n []))) = follows (s_trace σ).
Proof.
  intros Hpc Hf Hu Hraise He.
  destruct (fl_pc _ _ _ _ Hf) as [->|[-> _]].
  - exists 1%nat. split; [lia|]. cbn [replicate foldl].
    unfold loop_step at 2 4 6 8 10. rewrite Hpc. cbn [follow_step readline]. rewrite Hu.
    cbn [upto_newline]. unfold feed. rewrite bool_decide_eq_true_2 by done.
    cbn [negb]. unfold loop_step. cbn [s_pc s_world s_trace s_ignoreExisting follow_step].
    rewrite acts_nil, Hraise by done. unfold handle_exn. rewrite He.
    cbn [s_pc s_world s_trace s_ignoreExisting].
    repeat split; try done; rewrite ?yields_app, ?follows_app; cbn; by rewrite !app_nil_r.
  - exists 0%nat. split; [lia|]. cbn [replicate foldl].
    unfold loop_step. rewrite Hpc. cbn [follow_step].
    rewrite Hraise by done. unfold handle_exn. rewrite He.
    cbn [s_pc s_world s_trace s_ignoreExisting].
    repeat split; try done; rewrite ?yields_app, ?follows_app; cbn; by rewrite !app_nil_r.
Qed.

Lemma sample_exporter_quiet (ign hist : bool) (l : text) :
  (process_line (sample_exporter ign hist) l).2 = None.
Proof.
  unfold process_line, parse_line, sample_exporter, sample_parser. cbn [self_parser].
  destruct (bool_decide (l = t "bad" ++ [LF])); [done|].
  unfold observe, resolve, observe_summary, observe_histogram. cbn.
  by destruct hist.
Qed.

Lemma is_line_length (l : text) : is_line l → (0 < length l)%nat.
Proof. intros (r & _ & ->). rewrite length_app. cbn. lia. Qed.

(** ** X7 *)

(** X7. Rotation, from end to end, on plain text. The file is made of
    whole lines and quiet; [read_log_files] has taken it in (or skipped it, when
    [ignoreExisting] is configured) and is waiting. The path is then
    given to another file, made of whole lines: the loop notices at its
    next identity check, sleeps, calls [follow] a second time with
    [ignoreExisting] false, and every line of the new file is yielded,
    from its first byte on, after the lines of the old one; the loop is
    still running. *)
Theorem rotated_file_is_read_from_its_start (self : ApacheLogExporter) (w : world)
    (i j : Z) (pre ls : list text) (m k : nat) :
  (∀ l, (process_line self l).2 = None) →
  path w = Some i → contents w i = concat pre →
  plain_text (concat pre) → plain_text (concat ls) →
  Forall is_line pre → Forall is_line ls → j ≠ i →
  yields (s_trace (read_log_files self
            (replicate (3 + length pre + m) []
               ++ [Rotate j (concat ls)] :: replicate (5 + length ls + k) []) w))
    = (if self_ignoreExisting self then [] else pre) ++ ls ∧
  follows (s_trace (read_log_files self
            (replicate (3 + length pre + m) []
               ++ [Rotate j (concat ls)] :: replicate (5 + length ls + k) []) w))
    = [self_ignoreExisting self; false] ∧
  ∃ p, s_pc (read_log_files self
            (replicate (3 + length pre + m) []
               ++ [Rotate j (concat ls)] :: replicate (5 + length ls + k) []) w) = inr p.
Proof.
  intros Hline Hp Hc _ _ Hpre Hls Hj. unfold read_log_files. rewrite foldl_app.
  destruct (loop_catch_up self (read_log_files_init self w) (self_ignoreExisting self) i pre m
              Hline eq_refl Hp Hc Hpre)
    as (p & g & Hpc1 & Hw1 & Hi1 & Hf & Hpend & Hflag & Hsz & Hy1 & Hfo1).
  cbn [read_log_files_init s_world s_trace s_ignoreExisting] in *.
  set (σ1 := foldl (loop_step self) _ (replicate (3 + length pre + m) [])) in *.
  destruct (pending_nil _ _ _ _ Hf Hpend) as [_ Hd].
  set (w' := acts w [Rotate j (concat ls)]).
  assert (Hw' : path w' = Some j ∧ contents w' j = concat ls ∧ contents w' i = contents w i).
  { unfold w', acts, contents. cbn. rewrite lookup_insert_eq, lookup_insert_ne by done. done. }
  destruct Hw' as (Hp' & Hc' & Hci).
  destruct (recover self σ1 i p g [Rotate j (concat ls)] InodeChangedError)
    as (n & Hn & Hpc2 & Hw2 & Hi2 & Hy2 & Hfo2); try done.
  { by rewrite Hw1. }
  { rewrite Hw1. fold w'. unfold unread. by rewrite (fl_handle _ _ _ _ Hf), Hci. }
  { intros g' Ho _. rewrite Hw1. fold w'. unfold recheck, GetInodeAndSize, lstat.
    rewrite Hp', Ho, (fl_orig _ _ _ _ Hf).
    by destruct (Z.eqb_spec j i). }
  rewrite Hw1 in Hw2. fold w' in Hw2.
  replace (5 + length ls + k)%nat with (n + (3 + length ls + (k + 2 - n)))%nat by lia.
  rewrite replicate_add, app_comm_cons, foldl_app.
  set (σ2 := foldl (loop_step self) σ1 ([Rotate j (concat ls)] :: replicate n [])) in *.
  destruct (loop_catch_up self σ2 false j ls (k + 2 - n) Hline Hpc2)
    as (p3 & g3 & Hpc3 & _ & _ & _ & _ & _ & _ & Hy3 & Hfo3).
  { by rewrite Hw2. }
  { by rewrite Hw2. }
  { done. }
  split; [|split].
  - by rewrite Hy3, Hy2, Hy1.
  - by rewrite Hfo3, Hfo2, Hfo1.
  - by exists p3.
Qed.

Lemma rotated_file_is_read_from_its_start_witness :
  yields (s_trace (read_log_files (sample_exporter true true)
            (replicate 5 [] ++ [Rotate 8 (t "new" ++ [LF])] :: replicate 6 [])
            (sample_world (t "old" ++ [LF]))))
    = [t "new" ++ [LF]].
Proof.
  destruct (rotated_file_is_read_from_its_start (sample_exporter true true)
              (sample_world (t "old" ++ [LF])) 7 8 [t "old" ++ [LF]] [t "new" ++ [LF]] 1 0)
    as [Hy _].
  - apply sample_exporter_quiet.
  - reflexivity.
  - reflexivity.
  - reflexivity.
  - reflexivity.
  - repeat constructor; eexists; (split; [|reflexivity]);
      apply (bool_decide_unpack _); by vm_compute.
  - repeat constructor; eexists; (split; [|reflexivity]);
      apply (bool_decide_unpack _); by vm_compute.
  - done.
  - exact Hy.
Defined.

(** ** X8 *)

(** X8. Truncation, from end to end, on plain text. The file is made of
    whole lines and quiet, and [read_log_files] has taken it in (or skipped it) and is
    waiting. The file is then cut in place after some of its lines: the
    loop raises FileShrunkError at its next check, sleeps, and calls
    [follow] again with [ignoreExisting] false, which reads the file from
    offset 0: the lines that survived the cut are yielded, once more when
    they had been yielded before. *)
Theorem truncated_file_is_read_again (self : ApacheLogExporter) (w : world) (i : Z)
    (kept cut : list text) (m k : nat) :
  (∀ l, (process_line self l).2 = None) →
  path w = Some i → contents w i = concat (kept ++ cut) →
  plain_text (concat (kept ++ cut)) →
  Forall is_line (kept ++ cut) → cut ≠ [] →
  yields (s_trace (read_log_files self
            (replicate (3 + length (kept ++ cut) + m) []
               ++ [Truncate (length (concat kept))] :: replicate (5 + length kept + k) []) w))
    = (if self_ignoreExisting self then [] else kept ++ cut) ++ kept ∧
  follows (s_trace (read_log_files self
            (replicate (3 + length (kept ++ cut) + m) []
               ++ [Truncate (length (concat kept))] :: replicate (5 + length kept + k) []) w))
    = [self_ignoreExisting self; false].
Proof.
  intros Hline Hp Hc _ Hall Hcut. unfold read_log_files. rewrite foldl_app.
  destruct (loop_catch_up self (read_log_files_init self w) (self_ignoreExisting self) i
              (kept ++ cut) m Hline eq_refl Hp Hc Hall)
    as (p & g & Hpc1 & Hw1 & Hi1 & Hf & Hpend & Hflag & Hsz & Hy1 & Hfo1).
  cbn [read_log_files_init s_world s_trace s_ignoreExisting] in *.
  set (σ1 := foldl (loop_step self) _ (replicate (3 + length (kept ++ cut) + m) [])) in *.
  destruct (pending_nil _ _ _ _ Hf Hpend) as [_ Hd].
  apply Forall_app in Hall as [Hkept Hcutl].
  set (n := length (concat kept)) in *.
  set (w' := acts w [Truncate n]).
  assert (Hw' : path w' = Some i ∧ contents w' i = concat kept).
  { unfold w', acts. cbn [foldl act]. rewrite Hp. cbn [path]. rewrite contents_insert.
    split; [done|]. rewrite Hc, concat_app. unfold n. by rewrite take_app_length. }
  destruct Hw' as (Hp' & Hc').
  assert (Hlt : (n < length (contents w i))%nat).
  { rewrite Hc, concat_app, length_app. fold n.
    destruct cut as [|l cut]; [done|]. apply Forall_cons in Hcutl as [Hl _].
    apply is_line_length in Hl. cbn [concat]. rewrite length_app. lia. }
  assert (Hpos : (length (contents w i) ≤ h_pos (file g))%nat).
  { apply (f_equal length) in Hd. rewrite length_drop in Hd. cbn in Hd. lia. }
  destruct (recover self σ1 i p g [Truncate n] FileShrunkError)
    as (n' & Hn & Hpc2 & Hw2 & Hi2 & Hy2 & Hfo2); try done.
  { by rewrite Hw1. }
  { rewrite Hw1. fold w'. unfold unread. rewrite (fl_handle _ _ _ _ Hf), Hc'.
    apply drop_ge. fold n. lia. }
  { intros g' Ho Hs. rewrite Hw1. fold w'. unfold recheck, GetInodeAndSize, lstat.
    rewrite Hp', Ho, (fl_orig _ _ _ _ Hf), Z.eqb_refl, Hs, Hsz, Hc'. cbn [negb]. fold n.
    destruct (Z.ltb_spec (Z.of_nat n) (Z.of_nat (length (contents w i)))); [done|lia]. }
  rewrite Hw1 in Hw2. fold w' in Hw2.
  replace (5 + length kept + k)%nat with (n' + (3 + length kept + (k + 2 - n')))%nat by lia.
  rewrite replicate_add, app_comm_cons, foldl_app.
  set (σ2 := foldl (loop_step self) σ1 ([Truncate n] :: replicate n' [])) in *.
  destruct (loop_catch_up self σ2 false i kept (k + 2 - n') Hline Hpc2)
    as (p3 & g3 & Hpc3 & _ & _ & _ & _ & _ & _ & Hy3 & Hfo3).
  { by rewrite Hw2. }
  { by rewrite Hw2. }
  { done. }
  split.
  - by rewrite Hy3, Hy2, Hy1.
  - by rewrite Hfo3, Hfo2, Hfo1.
Qed.

Lemma truncated_file_is_read_again_witness :
  yields (s_trace (read_log_files (sample_exporter false true)
            (replicate 6 [] ++ [Truncate 4] :: replicate 6 [])
            (sample_world (t "one" ++ [LF] ++ t "two" ++ [LF]))))
    = [t "one" ++ [LF]; t "two" ++ [LF]; t "one" ++ [LF]].
Proof.
  destruct (truncated_file_is_read_again (sample_exporter false true)
              (sample_world (t "one" ++ [LF] ++ t "two" ++ [LF])) 7
              [t "one" ++ [LF]] [t "two" ++ [LF]] 1 0)
    as [Hy _].
  - apply sample_exporter_quiet.
  - reflexivity.
  - reflexivity.
  - reflexivity.
  - repeat constructor; eexists; (split; [|reflexivity]);
      apply (bool_decide_unpack _); by vm_compute.
  - done.
  - exact Hy.
Defined.

(** * The configuration *)

(** ** Dotted names *)

Lemma dot_free_cons (c : ascii) (s : string) :
  dot_free (String c s) ↔ c ≠ "."%char ∧ dot_free s.
Proof. unfold dot_free. cbn. rewrite not_elem_of_cons. split; intros [? ?]; auto. Qed.

Lemma split_dot_not_nil (s : string) : split_dot s ≠ [].
Proof.
  induction s as [|c s IH]; cbn; [done|].
  destruct (Ascii.eqb c "."); [done|]. by destruct (split_dot s).
Qed.

Lemma split_dot_dot_free (s : string) : dot_free s → split_dot s = [s].
Proof.
  induction s as [|c s IH]; [done|]. intros H. apply dot_free_cons in H as [Hc Hs].
  cbn [split_dot]. destruct (Ascii.eqb_spec c "."); [done|]. by rewrite IH.
Qed.

Lemma split_dot_app (s rest : string) :
  dot_free s → split_dot (s +:+ "." +:+ rest) = s :: split_dot rest.
Proof.
  induction s as [|c s IH]; [done|]. intros H. apply dot_free_cons in H as [Hc Hs].
  change (String c s +:+ "." +:+ rest) with (String c (s +:+ "." +:+ rest)).
  cbn [split_dot]. destruct (Ascii.eqb_spec c "."); [done|].
  by rewrite IH.
Qed.

(** Splitting a joined name gives the parts back. *)
Lemma split_dot_concat (parts : list string) :
  parts ≠ [] → Forall dot_free parts →
  split_dot (String.concat "." parts) = parts.
Proof.
  induction parts as [|part parts IH]; [done|]. intros _ H.
  apply Forall_cons in H as [Hp Hps].
  destruct parts as [|part' parts].
  - cbn. by apply split_dot_dot_free.
  - cbn [String.concat]. rewrite split_dot_app by done. f_equal. by apply IH.
Qed.

Lemma getParamDefault_parts_found (parts : list string) (yml v dflt : yaml) :
  at_path parts yml v → getParamDefault_parts yml parts dflt = inr v.
Proof.
  induction 1 as [v|part parts m sub v Hm _ IH]; [done|].
  cbn. rewrite bool_decide_eq_true_2 by by eexists. cbn. by rewrite Hm.
Qed.

Lemma getParamDefault_parts_missing (parts : list string) (yml dflt : yaml) :
  missing_at parts yml → getParamDefault_parts yml parts dflt = inr dflt.
Proof.
  induction 1 as [part parts m Hm|part parts m sub Hm _ IH]; cbn.
  - rewrite bool_decide_eq_false_2; [done|]. rewrite Hm. by intros [? ?].
  - rewrite bool_decide_eq_true_2 by by eexists. cbn. by rewrite Hm.
Qed.

Lemma getParamDefault_parts_scalar (parts : list string) (yml dflt : yaml) :
  scalar_at parts yml → getParamDefault_parts yml parts dflt = inl TypeError.
Proof.
  induction 1 as [part parts v [->|[[b ->]|[n ->]]]|part parts m sub Hm _ IH]; cbn;
    try done.
  rewrite bool_decide_eq_true_2 by by eexists. cbn. by rewrite Hm.
Qed.

(** ** X9 *)

(** X9. [getParamDefault] finds what nested mappings hold: when following
    the parts of a name down the configuration, mapping by mapping,
    leads to a value, the call with the parts joined by dots returns
    that value and not the default. *)
Theorem getParamDefault_finds_nested_value (parts : list string) (cfg v dflt : yaml) :
  parts ≠ [] → Forall dot_free parts → at_path parts cfg v →
  getParamDefault cfg (String.concat "." parts) dflt = inr v.
Proof.
  intros Hne Hd Hat. unfold getParamDefault. rewrite split_dot_concat by done.
  by apply getParamDefault_parts_found.
Qed.

Lemma getParamDefault_finds_nested_value_witness :
  getParamDefault
    (YMap {[ "input" := YMap {[ "filename" := YStr "/var/log/access.log" ]};
             "output" := YMap {[ "port" := YInt 9000 ]} ]})
    "input.filename" default_filename
  = inr (YStr "/var/log/access.log").
Proof.
  apply (getParamDefault_finds_nested_value ["input"; "filename"]).
  - done.
  - repeat constructor; apply (bool_decide_unpack _); by vm_compute.
  - eapply at_path_down; [by vm_compute|].
    eapply at_path_down; [by vm_compute|]. constructor.
Defined.

(** ** X10 *)

(** X10. [getParamDefault] returns the default, and raises nothing, when the
    name leads down nested mappings to a mapping that does not have the
    next key, at the first level or deeper. *)
Theorem getParamDefault_missing_key_gives_default (parts : list string) (cfg dflt : yaml) :
  parts ≠ [] → Forall dot_free parts → missing_at parts cfg →
  getParamDefault cfg (String.concat "." parts) dflt = inr dflt.
Proof.
  intros Hne Hd Hat. unfold getParamDefault. rewrite split_dot_concat by done.
  by apply getParamDefault_parts_missing.
Qed.

Lemma getParamDefault_missing_key_gives_default_witness :
  getParamDefault (YMap {[ "input" := YMap {[ "filename" := YStr "/var/log/access.log" ]} ]})
    "input.ignoreExisting" default_ignoreExisting
  = inr (YStr "true").
Proof.
  apply (getParamDefault_missing_key_gives_default ["input"; "ignoreExisting"]).
  - done.
  - repeat constructor; apply (bool_decide_unpack _); by vm_compute.
  - eapply missing_down; [by vm_compute|]. apply missing_here. by vm_compute.
Defined.

(** ** X11 *)

(** X11. [getParamDefault] does not fall back on the default when a value on
    the way is not a mapping. When the name leads, with parts left, to
    [None], a boolean or an integer, the membership test raises
    TypeError; this is so for every name when the whole configuration is
    such a value, as for an empty file. On a string the test is a search
    for the part in the string: the default when the part does not occur,
    TypeError from the subscript when it does. *)
Theorem getParamDefault_raises_on_scalar (cfg dflt : yaml) :
  (∀ parts, parts ≠ [] → Forall dot_free parts → scalar_at parts cfg →
     getParamDefault cfg (String.concat "." parts) dflt = inl TypeError) ∧
  (∀ name, cfg = YNone ∨ (∃ b, cfg = YBool b) ∨ (∃ n, cfg = YInt n) →
     getParamDefault cfg name dflt = inl TypeError) ∧
  (∀ name s part parts, cfg = YStr s → split_dot name = part :: parts →
     getParamDefault cfg name dflt
       = if occurs_in part s then inl TypeError else inr dflt).
Proof.
  split; [|split].
  - intros parts Hne Hd Hat. unfold getParamDefault. rewrite split_dot_concat by done.
    by apply getParamDefault_parts_scalar.
  - intros name Hc. unfold getParamDefault.
    pose proof (split_dot_not_nil name) as Hn.
    destruct (split_dot name) as [|part parts]; [done|].
    by destruct Hc as [->|[[b ->]| [n ->]]].
  - intros name s part parts -> Hs. unfold getParamDefault. rewrite Hs. cbn.
    by destruct (occurs_in part s).
Qed.

Lemma getParamDefault_raises_on_scalar_witness :
  getParamDefault (YMap {[ "input" := YInt 5 ]}) "input.filename" default_filename
    = inl TypeError ∧
  getParamDefault YNone "resolver" default_resolver = inl TypeError ∧
  getParamDefault (YStr "an input file") "input.filename" default_filename
    = inl TypeError.
Proof.
  destruct (getParamDefault_raises_on_scalar (YMap {[ "input" := YInt 5 ]}) default_filename)
    as [H1 _].
  destruct (getParamDefault_raises_on_scalar YNone default_resolver) as (_ & H2 & _).
  destruct (getParamDefault_raises_on_scalar (YStr "an input file") default_filename)
    as (_ & _ & H3).
  split; [|split].
  - apply (H1 ["input"; "filename"]).
    + done.
    + repeat constructor; apply (bool_decide_unpack _); by vm_compute.
    + eapply scalar_down; [by vm_compute|]. apply scalar_here. right. right. by eexists.
  - apply H2. by left.
  - by rewrite (H3 "input.filename" "an input file" "input" ["filename"] eq_refl eq_refl).
Defined.

(** ** [parseBool] *)

Lemma lower_ascii_idem (c : ascii) : lower_ascii (lower_ascii c) = lower_ascii c.
Proof. by destruct c as [[] [] [] [] [] [] [] []]. Qed.

Lemma lower_idem (s : string) : lower (lower s) = lower s.
Proof. induction s as [|c s IH]; [done|]. cbn. by rewrite lower_ascii_idem, IH. Qed.

Lemma lower_ascii_one (c : ascii) : lower_ascii c = "1"%char → c = "1"%char.
Proof. by destruct c as [[] [] [] [] [] [] [] []]. Qed.

Lemma lower_one (x : string) : lower x = "1" ↔ x = "1".
Proof.
  split; [|by intros ->].
  destruct x as [|c [|c' x]]; cbn; try done.
  intros [= Hc]. by rewrite (lower_ascii_one c Hc).
Qed.

(** ** X12 *)

(** X12. What [parseBool] returns is [True], [False], 0 or 1 (the integers
    come back as they are, since 1 == True and 0 == False), and it is a
    fixed point: applying [parseBool] again returns the same value. It
    raises exactly on [None], on lists and mappings and on the integers
    other than 0 and 1, which have no [lower], and then AttributeError;
    on a string or a boolean it never raises. *)
Theorem parseBool_values (s : yaml) :
  (∀ v, parseBool s = inr v →
     (v = YBool true ∨ v = YBool false ∨ v = YInt 0 ∨ v = YInt 1) ∧
     parseBool v = inr v) ∧
  (∀ e, parseBool s = inl e → e = AttributeError) ∧
  ((∃ e, parseBool s = inl e) ↔
   s = YNone ∨ (∃ n, s = YInt n ∧ n ≠ 0 ∧ n ≠ 1) ∨ (∃ l, s = YList l) ∨ (∃ m, s = YMap m)).
Proof.
  assert (Hint : ∀ n, (n = 1 ∧ parseBool (YInt n) = inr (YInt 1)) ∨
                      (n = 0 ∧ parseBool (YInt n) = inr (YInt 0)) ∨
                      (n ≠ 0 ∧ n ≠ 1 ∧ parseBool (YInt n) = inl AttributeError)).
  { intros n. unfold parseBool. cbn [py_eq_bool].
    destruct (Z.eqb_spec n 1) as [->|H1]; [by left|].
    destruct (Z.eqb_spec n 0) as [->|H0]; [right; by left|]. right. by right. }
  assert (Hstr : ∀ x, ∃ b, parseBool (YStr x) = inr (YBool b)).
  { intros x. unfold parseBool. cbn [py_eq_bool orb].
    repeat case_match; by eexists. }
  assert (Hbool : ∀ b, parseBool (YBool b) = inr (YBool b)) by by intros [].
  destruct s as [|b|n|x|l|m].
  - split; [done|]. split; [by intros e [= <-]|]. split; [auto|]. intros _. by eexists.
  - rewrite Hbool. split; [|split; [done|]].
    + intros v [= <-]. split; [destruct b; auto|done].
    + split; [by intros [e He]|]. intros [?|[(n & ? & _)|[[l ?]|[m ?]]]]; done.
  - destruct (Hint n) as [[-> Hn]|[[-> Hn]|(H0 & H1 & Hn)]]; rewrite Hn.
    + split; [intros v [= <-]; auto|]. split; [done|].
      split; [by intros [e He]|]. intros [?|[(n & [= <-] & _ & ?)|[[l ?]|[m ?]]]]; done.
    + split; [intros v [= <-]; auto|]. split; [done|].
      split; [by intros [e He]|]. intros [?|[(n & [= <-] & ? & _)|[[l ?]|[m ?]]]]; done.
    + split; [done|]. split; [by intros e [= <-]|].
      split; [|intros _; by eexists]. intros _. right. left. by exists n.
  - destruct (Hstr x) as [b Hx]. rewrite Hx.
    split; [|split; [done|]].
    + intros v [= <-]. split; [destruct b; auto|apply Hbool].
    + split; [by intros [e He]|]. intros [?|[(n & ? & _)|[[l ?]|[m ?]]]]; done.
  - split; [done|]. split; [by intros e [= <-]|].
    split; [|intros _; by eexists]. intros _. right. right. left. by eexists.
  - split; [done|]. split; [by intros e [= <-]|].
    split; [|intros _; by eexists]. intros _. right. right. right. by eexists.
Qed.

Lemma parseBool_values_witness :
  parseBool (YStr "Yes") = inr (YBool true) ∧
  parseBool (YBool true) = inr (YBool true) ∧
  parseBool (YInt 1) = inr (YInt 1) ∧
  parseBool (YInt 2) = inl AttributeError.
Proof.
  destruct (parseBool_values (YStr "Yes")) as [H1 _].
  destruct (H1 (YBool true) eq_refl) as [_ H2].
  destruct (parseBool_values (YInt 2)) as (_ & H3 & _).
  split; [reflexivity|]. split; [exact H2|]. split; [reflexivity|].
  destruct (parseBool (YInt 2)) as [e|v] eqn:He; [|done].
  by rewrite (H3 e eq_refl).
Defined.

(** ** X13 *)

(** X13. The reading of a string by [parseBool] does not depend on the case
    of its letters: a string and its lower-case form give the same
    result (the comparison with "1" is on the string itself, which
    lower-casing leaves alone). *)
Theorem parseBool_ignores_case (x : string) :
  parseBool (YStr (lower x)) = parseBool (YStr x).
Proof.
  unfold parseBool. cbn [py_eq_bool orb]. rewrite lower_idem.
  destruct (bool_decide (lower x = "true") || bool_decide (lower x = "on")
            || bool_decide (lower x = "yes")); [done|].
  destruct (decide (x = "1")) as [->|Hx]; [done|].
  rewrite (bool_decide_eq_false_2 (x = "1")) by done.
  rewrite bool_decide_eq_false_2; [done|]. by rewrite lower_one.
Qed.

(** * [get_settings] *)

Lemma bind_exn_inr {A B : Type} (x : exn + A) (f : A → exn + B) (b : B) :
  bind_exn x f = inr b → ∃ a, x = inr a ∧ f a = inr b.
Proof. destruct x as [e|a]; [done|]. intros H. by exists a. Qed.

(** ** X14 *)

(** X14. A configuration that is a mapping without the keys "input",
    "output" and "resolver" (an empty one, or one with other keys only)
    gives the defaults: the file followed is
    "apache-log-exporter-api.yaml", the format is the built-in one,
    existing content is ignored, the port is 9181 and the resolver maps
    the two loopback addresses to "localhost". *)
Theorem get_settings_defaults (a : apachelogs) (int_str : string → exn + Z)
    (m : gmap string yaml) :
  m !! "input" = None → m !! "output" = None → m !! "resolver" = None →
  get_settings a int_str (YMap m)
    = inr (Settings default_filename default_format (YBool true) 9181 default_resolver).
Proof.
  intros Hi Ho Hr. unfold get_settings, getParamDefault.
  cbn [split_dot Ascii.eqb Bool.eqb]. cbn [getParamDefault_parts py_in bind_exn].
  rewrite !bool_decide_eq_false_2 by (rewrite ?Hi, ?Ho, ?Hr; by intros [? ?]).
  cbn [negb bind_exn]. cbn. done.
Qed.

Lemma get_settings_defaults_witness :
  get_settings (Apachelogs "c" "cd" "m" "md" "vc" "vm") (λ _, inl TypeError)
    (YMap {[ "logging" := YStr "debug" ]})
    = inr (Settings default_filename default_format (YBool true) 9181 default_resolver).
Proof.
  apply get_settings_defaults; by vm_compute.
Defined.

(** ** X15 *)

(** X15. What [get_settings] guarantees when it returns: [ignoreExisting] is
    [True], [False], 0 or 1; the format is not a list or a mapping; and
    a configured format that is one of the six names of [formatMap] has
    been replaced by the string of the library, any other string being
    kept as it is. *)
Theorem get_settings_result (a : apachelogs) (int_str : string → exn + Z) (cfg : yaml)
    (st : settings) :
  get_settings a int_str cfg = inr st →
  (set_ignoreExisting st = YBool true ∨ set_ignoreExisting st = YBool false ∨
   set_ignoreExisting st = YInt 0 ∨ set_ignoreExisting st = YInt 1) ∧
  (∀ l, set_format st ≠ YList l) ∧ (∀ m, set_format st ≠ YMap m) ∧
  (∀ name, getParamDefault cfg "input.format" default_format = inr (YStr name) →
     set_format st = YStr (default name (formatMap a !! name))).
Proof.
  unfold get_settings. intros H.
  apply bind_exn_inr in H as (fn & _ & H).
  apply bind_exn_inr in H as (format & Hformat & H).
  apply bind_exn_inr in H as (ign & _ & H).
  apply bind_exn_inr in H as (ignoreExisting & Hign & H).
  apply bind_exn_inr in H as (port & _ & H).
  apply bind_exn_inr in H as (port' & _ & H).
  apply bind_exn_inr in H as (resolver & _ & H).
  apply bind_exn_inr in H as (format' & Hf & H).
  simplify_eq. cbn [set_ignoreExisting set_format].
  split; [|split; [|split]].
  - destruct (parseBool_values ign) as [Hv _]. by destruct (Hv _ Hign).
  - intros l ->. destruct format; cbn in Hf; simplify_eq. by destruct (formatMap a !! s).
  - intros m ->. destruct format; cbn in Hf; simplify_eq. by destruct (formatMap a !! s).
  - intros name Hn. rewrite Hn in Hformat. simplify_eq. cbn in Hf. simplify_eq.
    by destruct (formatMap a !! name).
Qed.

Lemma get_settings_result_witness :
  ∃ st,
    get_settings (Apachelogs "c" "cd" "m" "md" "vc" "vm") (λ _, inl TypeError)
      (YMap {[ "input" := YMap {[ "format" := YStr "COMMON"; "ignoreExisting" := YStr "Off" ]} ]})
      = inr st ∧
    set_format st = YStr "m" ∧ set_ignoreExisting st = YBool false.
Proof.
  eexists. split; [by vm_compute|].
  match goal with |- set_format ?s = _ ∧ _ =>
    destruct (get_settings_result (Apachelogs "c" "cd" "m" "md" "vc" "vm") (λ _, inl TypeError)
                (YMap {[ "input" := YMap {[ "format" := YStr "COMMON";
                                             "ignoreExisting" := YStr "Off" ]} ]})
                s ltac:(by vm_compute)) as (_ & _ & _ & Hf)
  end.
  split; [|reflexivity]. rewrite (Hf "COMMON" ltac:(by vm_compute)). by vm_compute.
Defined.

(** * A file that is not there yet *)

Lemma loop_step_missing (self : ApacheLogExporter) (σ : sys) (b : bool) :
  s_pc σ = inr (AtStat b) → path (s_world σ) = None →
  loop_step self σ []
    = Sys (s_world σ) false (inr (follow false))
        (s_trace σ ++ [EFollow b] ++ [EPrint FileNotFoundError; EBackoff 1]).
Proof.
  intros Hpc Hp. unfold loop_step. rewrite Hpc, acts_nil. cbn [follow_step].
  unfold GetInodeAndSize, lstat. by rewrite Hp.
Qed.

Lemma loop_missing_run (self : ApacheLogExporter) (n : nat) (σ : sys) (b : bool) :
  s_pc σ = inr (AtStat b) → path (s_world σ) = None →
  s_pc (foldl (loop_step self) σ (replicate (S n) [])) = inr (follow false) ∧
  s_world (foldl (loop_step self) σ (replicate (S n) [])) = s_world σ ∧
  s_ignoreExisting (foldl (loop_step self) σ (replicate (S n) [])) = false ∧
  yields (s_trace (foldl (loop_step self) σ (replicate (S n) []))) = yields (s_trace σ) ∧
  follows (s_trace (foldl (loop_step self) σ (replicate (S n) [])))
    = follows (s_trace σ) ++ b :: replicate n false.
Proof.
  revert σ b. induction n as [|n IH]; intros σ b Hpc Hp.
  - cbn [replicate foldl]. rewrite (loop_step_missing self σ b Hpc Hp).
    cbn [s_pc s_world s_ignoreExisting s_trace].
    rewrite yields_app, follows_app. cbn. by rewrite app_nil_r.
  - change (replicate (S (S n)) []) with ([] :: replicate (S n) ([] : list action)).
    rewrite loop_cons, (loop_step_missing self σ b Hpc Hp).
    match goal with |- context [foldl _ ?s _] => set (σ1 := s) end.
    destruct (IH σ1 false eq_refl Hp) as (H1 & H2 & H3 & H4 & H5).
    split; [done|]. split; [done|]. split; [done|].
    rewrite H4, H5. unfold σ1. cbn [s_trace]. rewrite yields_app, follows_app. cbn.
    rewrite app_nil_r, <- app_assoc. done.
Qed.

(** ** X16 *)

(** X16. When the file does not exist as [read_log_files] starts, the loop
    reports FileNotFoundError and tries again every second, and by then
    the configured [ignoreExisting] is gone: once the file appears, made
    of whole lines of plain text, all its lines are yielded, from its first byte on,
    whether or not existing content was to be ignored. *)
Theorem file_missing_at_start_is_read_whole (self : ApacheLogExporter) (w : world) (i : Z)
    (ls : list text) (n k : nat) :
  (∀ l, (process_line self l).2 = None) →
  path w = None → plain_text (concat ls) → Forall is_line ls →
  yields (s_trace (read_log_files self
            (replicate (S n) [] ++ [Rotate i (concat ls)] :: replicate (2 + length ls + k) [])
            w)) = ls ∧
  follows (s_trace (read_log_files self
            (replicate (S n) [] ++ [Rotate i (concat ls)] :: replicate (2 + length ls + k) [])
            w)) = self_ignoreExisting self :: replicate (S n) false.
Proof.
  intros Hline Hp _ Hls. unfold read_log_files. rewrite foldl_app.
  destruct (loop_missing_run self n (read_log_files_init self w) (self_ignoreExisting self)
              eq_refl Hp) as (Hpc1 & Hw1 & Hi1 & Hy1 & Hfo1).
  set (σ1 := foldl (loop_step self) _ (replicate (S n) [])) in *.
  cbn [read_log_files_init s_world s_trace] in *.
  rewrite loop_cons.
  change (loop_step self σ1 [Rotate i (concat ls)])
    with (loop_step self (Sys (acts (s_world σ1) [Rotate i (concat ls)])
                            (s_ignoreExisting σ1) (s_pc σ1) (s_trace σ1)) []).
  rewrite <- loop_cons.
  change ([] :: replicate (2 + length ls + k) [])
    with (replicate (3 + length ls + k) ([] : list action)).
  set (σ2 := Sys (acts (s_world σ1) [Rotate i (concat ls)])
               (s_ignoreExisting σ1) (s_pc σ1) (s_trace σ1)).
  destruct (loop_catch_up self σ2 false i ls k Hline Hpc1)
    as (p & g & _ & _ & _ & _ & _ & _ & _ & Hy & Hfo); try done.
  { unfold σ2, acts, contents. cbn. by rewrite lookup_insert_eq. }
  rewrite Hy, Hfo. unfold σ2. cbn [s_trace]. rewrite Hy1, Hfo1. cbn [app].
  split; [done|]. by rewrite replicate_S_end.
Qed.

Lemma file_missing_at_start_is_read_whole_witness :
  yields (s_trace (read_log_files (sample_exporter true true)
            (replicate 2 [] ++ [Rotate 8 (t "one" ++ [LF])] :: replicate 3 [])
            (World None ∅)))
    = [t "one" ++ [LF]].
Proof.
  destruct (file_missing_at_start_is_read_whole (sample_exporter true true) (World None ∅) 8
              [t "one" ++ [LF]] 1 0) as [Hy _].
  - apply sample_exporter_quiet.
  - reflexivity.
  - reflexivity.
  - repeat constructor; eexists; (split; [|reflexivity]);
      apply (bool_decide_unpack _); by vm_compute.
  - exact Hy.
Defined.
